(** * GitStory: the line diff of the [DiffViewer] component

    A shallow embedding of the diff logic of [diff-viewer.tsx]: the
    index-aligned [computeDiff] of the current component, the membership
    loop of the earlier component, the split-view flags, the truncation
    banner and the annotation lookup.  JavaScript values are modelled as
    follows: a string is a [string], a possibly [undefined] string is an
    [option string], an array is a [list] read with stdpp's lookup
    ([l !! i] is [None] where JavaScript gives [undefined]), a [Set] of
    strings is a [gset string], and a loop whose exit is not evident is a
    fuelled iteration that returns [None] when the fuel runs out. *)

From stdpp Require Import base list strings gmap sorting.
From Stdlib Require Import ZArith Ascii.
Open Scope string_scope.
Open Scope list_scope.
Open Scope nat_scope.

(** ** JavaScript helpers *)

Module JS.

(** The line feed, the separator of [split("\n")]. *)
Definition nl : ascii := ascii_of_nat 10.

(** [s.split("\n")]: the pieces of [s] between line feeds.  The result is
    never empty: the empty string splits into one empty piece. *)
Fixpoint split (s : string) : list string :=
  match s with
  | EmptyString => [EmptyString]
  | String c rest =>
      if decide (c = nl) then EmptyString :: split rest
      else match split rest with
           | l :: ls => String c l :: ls
           | [] => [String c EmptyString] (* not taken: [split] is never empty *)
           end
  end.

(** [lines.join("\n")], used to write multi-line inputs. *)
Fixpoint join (lines : list string) : string :=
  match lines with
  | [] => EmptyString
  | [l] => l
  | l :: ls => l +:+ String nl (join ls)
  end.

(** Truthiness of a possibly undefined string: defined and not empty. *)
Definition truthy (x : option string) : bool :=
  match x with
  | Some (String _ _) => true
  | _ => false
  end.

(** [x || e] with [e] the empty string. *)
Definition or_empty (x : option string) : string :=
  if truthy x then default EmptyString x else EmptyString.

(** [arr.includes(x)] on an array of strings: [undefined] is never an
    element. *)
Definition includes (arr : list string) (x : option string) : bool :=
  match x with
  | Some s => bool_decide (s ∈ arr)
  | None => false
  end.

(** A [while (cond) body] loop run with bounded fuel: [Some] of the exit
    state, or [None] when [fuel] iterations did not reach the exit. *)
Fixpoint while {St : Type} (cond : St → bool) (body : St → St)
    (fuel : nat) (st : St) : option St :=
  match fuel with
  | 0 => None
  | S fuel' => if cond st then while cond body fuel' (body st) else Some st
  end.

End JS.

(** ** The diff records *)

Inductive LineType := unchanged | removed | added.

#[global] Instance LineType_eq_dec : EqDecision LineType.
Proof. solve_decision. Defined.

Record DiffLine := mkDiffLine {
  type : LineType;
  lineNumber : nat;
  content : string
}.

#[global] Instance DiffLine_eq_dec : EqDecision DiffLine.
Proof. solve_decision. Defined.

(** ** [computeDiff]: the index-aligned diff of the current component *)

Definition MAX_LINES : nat := 500.

(** One pass of the body of the [for] loop at index [i]: the records pushed
    onto [result]. *)
Definition loopBody (before after : list string) (i : nat)
    (result : list DiffLine) : list DiffLine :=
  let beforeLine := before !! i in
  let afterLine := after !! i in
  match beforeLine, afterLine with
  | None, Some a =>
      result ++ [mkDiffLine added (i + 1) a]
  | Some b, None =>
      result ++ [mkDiffLine removed (i + 1) b]
  | _, _ =>
      if decide (beforeLine = afterLine) then
        result ++ [mkDiffLine unchanged (i + 1) (JS.or_empty afterLine)]
      else
        (result ++ [mkDiffLine removed (i + 1) (JS.or_empty beforeLine)])
          ++ [mkDiffLine added (i + 1) (JS.or_empty afterLine)]
  end.

(** [for (let i = ...; i < maxLen; i++)] with [n] passes left: the bound is
    fixed before the loop and [i] moves by one, so the loop is counted. *)
Fixpoint forLoop (before after : list string) (n i : nat)
    (result : list DiffLine) : list DiffLine :=
  match n with
  | 0 => result
  | S n' => forLoop before after n' (S i) (loopBody before after i result)
  end.

Definition computeDiff (beforeCode afterCode : option string) : list DiffLine :=
  let beforeLines := JS.split (JS.or_empty beforeCode) in
  let afterLines := JS.split (JS.or_empty afterCode) in
  let before := take MAX_LINES beforeLines in
  let after := take MAX_LINES afterLines in
  let maxLen := Nat.max (length before) (length after) in
  forLoop before after maxLen 0 [].

(** The same loop as a [while] over the pair of [i] and [result], where
    running out of fuel is visible. *)
Definition computeDiffFuel (fuel : nat) (beforeCode afterCode : option string)
    : option (list DiffLine) :=
  let beforeLines := JS.split (JS.or_empty beforeCode) in
  let afterLines := JS.split (JS.or_empty afterCode) in
  let before := take MAX_LINES beforeLines in
  let after := take MAX_LINES afterLines in
  let maxLen := Nat.max (length before) (length after) in
  snd <$> JS.while (λ st, Nat.ltb (fst st) maxLen)
            (λ st, (S (fst st), loopBody before after (fst st) (snd st)))
            fuel (0, []).


(** ** The rest of the current component: banner, split view, annotations *)

Inductive AnnotationType := info | warning | error | insight.

Module Annotation.
(** [line] is a JavaScript number supplied from outside: any integer. *)
Record t := mk {
  line : Z;
  message : string;
  type : AnnotationType
}.
End Annotation.

#[global] Instance AnnotationType_eq_dec : EqDecision AnnotationType.
Proof. solve_decision. Defined.

#[global] Instance Annotation_eq_dec : EqDecision Annotation.t.
Proof. solve_decision. Defined.

Module DiffViewer.

Section Props.
Variables beforeCode afterCode : option string.

Definition diffLines : list DiffLine := computeDiff beforeCode afterCode.

Definition beforeLines : list string := JS.split (JS.or_empty beforeCode).
Definition afterLines : list string := JS.split (JS.or_empty afterCode).

(** [new Set(beforeLines)], [new Set(afterLines)]: built from the whole
    texts, not from their first 500 lines. *)
Definition beforeLinesSet : gset string := list_to_set beforeLines.
Definition afterLinesSet : gset string := list_to_set afterLines.

(** The condition of the truncation banner and the number it shows. *)
Definition truncated : bool :=
  Nat.ltb 500 (length beforeLines) || Nat.ltb 500 (length afterLines).
Definition fullFileLines : nat :=
  Nat.max (length beforeLines) (length afterLines).

(** Split view: the flag of a line of the before column and of a line of
    the after column. *)
Definition isRemoved (line : string) : bool :=
  negb (bool_decide (line ∈ afterLinesSet)).
Definition isAdded (line : string) : bool :=
  negb (bool_decide (line ∈ beforeLinesSet)).

(** The rows of the two columns: number shown, flag, text. *)
Definition splitBefore : list (nat * bool * string) :=
  imap (λ idx line, (idx + 1, isRemoved line, line)) (take 500 beforeLines).
Definition splitAfter : list (nat * bool * string) :=
  imap (λ idx line, (idx + 1, isAdded line, line)) (take 500 afterLines).

(** The three counts of the header. *)
Definition additions : nat :=
  length (filter (λ l, type l = added) diffLines).
Definition deletions : nat :=
  length (filter (λ l, type l = removed) diffLines).
Definition unchangedCount : nat :=
  length (filter (λ l, type l = unchanged) diffLines).

(** The height of the two panels of the split view, in pixels. *)
Definition lineHeight : nat := 24.
Definition maxLines : nat :=
  Nat.min (Nat.max (length beforeLines) (length afterLines)) 500.
Definition panelHeight : nat := Nat.min (maxLines * lineHeight) 720.
End Props.

(** [annotations.find((a) => a.line === lineNumber)]. *)
Definition getAnnotationForLine (annotations : list Annotation.t)
    (lineNumber : nat) : option Annotation.t :=
  find (λ a, bool_decide (Annotation.line a = Z.of_nat lineNumber)) annotations.

(** Unified view: each record with the annotation looked up at its
    [lineNumber].  Split view, after column: each row with the annotation
    looked up at its number.  (The annotation is drawn under the row when
    [showAnnotations] is on.) *)
Definition unifiedRows (beforeCode afterCode : option string)
    (annotations : list Annotation.t) : list (DiffLine * option Annotation.t) :=
  (λ line, (line, getAnnotationForLine annotations (lineNumber line)))
    <$> diffLines beforeCode afterCode.
Definition splitAfterAnnotations (afterCode : option string)
    (annotations : list Annotation.t)
    : list (nat * string * option Annotation.t) :=
  imap (λ idx line, (idx + 1, line, getAnnotationForLine annotations (idx + 1)))
    (take 500 (afterLines afterCode)).

End DiffViewer.

(** ** The loop of the earlier component *)

Module Legacy.

Record LoopState := mkLoopState {
  beforeIdx : nat;
  afterIdx : nat;
  diffLines : list DiffLine
}.

Section Loop.
Variables beforeLines afterLines : list string.

Definition cond (st : LoopState) : bool :=
  Nat.ltb (beforeIdx st) (length beforeLines)
  || Nat.ltb (afterIdx st) (length afterLines).

Definition body (st : LoopState) : LoopState :=
  let beforeLine := beforeLines !! beforeIdx st in
  let afterLine := afterLines !! afterIdx st in
  if decide (beforeLine = afterLine) then
    mkLoopState (S (beforeIdx st)) (S (afterIdx st))
      (diffLines st
         ++ [mkDiffLine unchanged (afterIdx st + 1) (JS.or_empty afterLine)])
  else if negb (JS.includes afterLines beforeLine)
          && bool_decide (beforeLine ≠ None) then
    (* [content: beforeLine], a defined string in this branch *)
    mkLoopState (S (beforeIdx st)) (afterIdx st)
      (diffLines st
         ++ [mkDiffLine removed (beforeIdx st + 1)
               (default EmptyString beforeLine)])
  else
    mkLoopState (beforeIdx st) (S (afterIdx st))
      (diffLines st
         ++ [mkDiffLine added (afterIdx st + 1) (JS.or_empty afterLine)]).
End Loop.

(** The records built by the [while] loop, when it exits within [fuel]
    iterations. *)
Definition diffLinesFuel (fuel : nat) (beforeCode afterCode : option string)
    : option (list DiffLine) :=
  let beforeLines := JS.split (JS.or_empty beforeCode) in
  let afterLines := JS.split (JS.or_empty afterCode) in
  diffLines <$> JS.while (cond beforeLines afterLines)
                  (body beforeLines afterLines) fuel (mkLoopState 0 0 []).

(** The split view and the panel height of the earlier component: no
    slice to 500 rows, [includes] on the arrays instead of a [Set], and the
    text of a row passed through [highlightSyntax]. *)
Section View.
Variables beforeCode afterCode : option string.

(** The rewriting [highlightSyntax] does for the JavaScript family (keywords,
    strings and comments wrapped in [span] markup by regular expressions),
    kept abstract; and the [language] property of the component. *)
Variable highlightMarkup : string → string.
Variable language : string.

Definition highlightSyntax (code lang : string) : string :=
  if bool_decide (lang = "javascript") || bool_decide (lang = "typescript")
     || bool_decide (lang = "tsx") || bool_decide (lang = "jsx")
  then highlightMarkup code
  else code.

Definition beforeLines : list string := JS.split (JS.or_empty beforeCode).
Definition afterLines : list string := JS.split (JS.or_empty afterCode).

(** The rows of the two columns: number shown, flag, markup rendered. *)
Definition splitBefore : list (nat * bool * string) :=
  imap (λ idx line, (idx + 1, negb (JS.includes afterLines (Some line)),
                     highlightSyntax line language))
    beforeLines.
Definition splitAfter : list (nat * bool * string) :=
  imap (λ idx line, (idx + 1, negb (JS.includes beforeLines (Some line)),
                     highlightSyntax line language))
    afterLines.

Definition lineHeight : nat := 24.
Definition maxLines : nat := Nat.max (length beforeLines) (length afterLines).
Definition panelHeight : nat := Nat.min (maxLines * lineHeight) 720.
End View.

End Legacy.


(** ** Views of the result used in the statements *)

(** The records one pass of the [for] loop pushes at index [i]. *)
Definition pushed (before after : list string) (i : nat) : list DiffLine :=
  loopBody before after i [].

(** The texts of the [removed] and [unchanged] records, in emitted order, and
    those of the [added] and [unchanged] records. *)
Definition beforeSide (result : list DiffLine) : list string :=
  content <$> filter (λ d, type d = removed ∨ type d = unchanged) result.
Definition afterSide (result : list DiffLine) : list string :=
  content <$> filter (λ d, type d = added ∨ type d = unchanged) result.

(** The same two views with the position of each record kept. *)
Definition beforeSideNumbered (result : list DiffLine) : list (nat * string) :=
  (λ d, (lineNumber d, content d))
    <$> filter (λ d, type d = removed ∨ type d = unchanged) result.
Definition afterSideNumbered (result : list DiffLine) : list (nat * string) :=
  (λ d, (lineNumber d, content d))
    <$> filter (λ d, type d = added ∨ type d = unchanged) result.

(** A line feed somewhere in a text. *)
Fixpoint hasLineFeed (s : string) : bool :=
  match s with
  | EmptyString => false
  | String c rest => bool_decide (c = JS.nl) || hasLineFeed rest
  end.

(** * Properties *)

(** ** The loops on small inputs *)

(** A pure append: three [unchanged] records, then one [added] record at
    position 4. *)
Example computeDiff_append :
  computeDiff (Some (JS.join ["a"; "b"; "c"])) (Some (JS.join ["a"; "b"; "c"; "d"]))
  = [mkDiffLine unchanged 1 "a"; mkDiffLine unchanged 2 "b";
     mkDiffLine unchanged 3 "c"; mkDiffLine added 4 "d"].
Proof. vm_compute. reflexivity. Qed.

(** [split] on a text with a trailing line feed, and after [join]. *)
Example split_trailing_newline :
  JS.split (String "a" (String JS.nl EmptyString)) = ["a"; EmptyString]
  ∧ JS.split (JS.join ["a"; "b"; "c"]) = ["a"; "b"; "c"].
Proof. split; reflexivity. Qed.

(** The earlier loop on a line that moved down by one. *)
Example legacy_moved_line :
  Legacy.diffLinesFuel 10 (Some "a") (Some (JS.join ["b"; "a"]))
  = Some [mkDiffLine added 1 "b"; mkDiffLine unchanged 2 "a"].
Proof. vm_compute. reflexivity. Qed.

(** ** Facts about the JavaScript helpers *)

Lemma or_empty_Some (s : string) : JS.or_empty (Some s) = s.
Proof. by destruct s. Qed.

Lemma or_empty_falsy (x : option string) :
  JS.truthy x = false → JS.or_empty x = EmptyString.
Proof. unfold JS.or_empty. by intros ->. Qed.

Lemma split_length_pos (s : string) : 0 < length (JS.split s).
Proof.
  induction s as [|c s IH]; simpl; [lia|].
  case_decide; simpl; [lia|].
  destruct (JS.split s); simpl in *; lia.
Qed.

Lemma split_cons (s : string) : ∃ l ls, JS.split s = l :: ls.
Proof.
  pose proof (split_length_pos s) as H.
  destruct (JS.split s) as [|l ls]; simpl in H; [lia|eauto].
Qed.

(** A counted loop run as a [while] exits after its [n] passes, given one
    more unit of fuel than passes. *)
Lemma while_counted {R : Type} (step : nat → R → R) (n : nat) :
  ∀ (i fuel : nat) (r : R),
    n < fuel →
    JS.while (λ st, Nat.ltb (fst st) (i + n))
      (λ st, (S (fst st), step (fst st) (snd st))) fuel (i, r)
    = Some (i + n, fold_left (λ acc j, step j acc) (seq i n) r).
Proof.
  induction n as [|n IH]; intros i fuel r Hfuel.
  - destruct fuel as [|fuel]; [lia|]. simpl.
    replace (i + 0) with i by lia.
    by rewrite Nat.ltb_irrefl.
  - destruct fuel as [|fuel]; [lia|]. simpl.
    destruct (Nat.ltb_spec i (i + S n)) as [_|?]; [|lia].
    replace (i + S n) with (S i + n) by lia.
    apply IH. lia.
Qed.

(** ** The index-aligned loop, pass by pass *)

Section Aligned.
Variables before after : list string.

Lemma loopBody_pushed (i : nat) (result : list DiffLine) :
  loopBody before after i result = result ++ pushed before after i.
Proof.
  unfold pushed, loopBody.
  destruct (before !! i), (after !! i); try case_decide;
    by rewrite <- ?app_assoc.
Qed.

Lemma forLoop_fold (n i : nat) (result : list DiffLine) :
  forLoop before after n i result
  = fold_left (λ acc j, loopBody before after j acc) (seq i n) result.
Proof. revert i result. induction n as [|n IH]; intros; simpl; auto. Qed.

Lemma forLoop_bind (n i : nat) (result : list DiffLine) :
  forLoop before after n i result = result ++ (seq i n ≫= pushed before after).
Proof.
  revert i result. induction n as [|n IH]; intros i result; simpl.
  - by rewrite app_nil_r.
  - rewrite IH, loopBody_pushed. by rewrite <- app_assoc.
Qed.

Lemma pushed_added (i : nat) (a : string) :
  before !! i = None → after !! i = Some a →
  pushed before after i = [mkDiffLine added (i + 1) a].
Proof. unfold pushed, loopBody. by intros -> ->. Qed.

Lemma pushed_removed (i : nat) (b : string) :
  before !! i = Some b → after !! i = None →
  pushed before after i = [mkDiffLine removed (i + 1) b].
Proof. unfold pushed, loopBody. by intros -> ->. Qed.

Lemma pushed_unchanged (i : nat) (b : string) :
  before !! i = Some b → after !! i = Some b →
  pushed before after i = [mkDiffLine unchanged (i + 1) b].
Proof.
  unfold pushed, loopBody. intros -> ->.
  case_decide; [|done]. by rewrite or_empty_Some.
Qed.

Lemma pushed_changed (i : nat) (b a : string) :
  before !! i = Some b → after !! i = Some a → b ≠ a →
  pushed before after i = [mkDiffLine removed (i + 1) b; mkDiffLine added (i + 1) a].
Proof.
  unfold pushed, loopBody. intros -> -> Hne.
  case_decide; [congruence|]. by rewrite !or_empty_Some.
Qed.

(** The four cases of a pass at an index where a side is defined. *)
Lemma pushed_cases (i : nat) :
  i < Nat.max (length before) (length after) →
  (∃ a, before !! i = None ∧ after !! i = Some a
        ∧ pushed before after i = [mkDiffLine added (i + 1) a])
  ∨ (∃ b, before !! i = Some b ∧ after !! i = None
        ∧ pushed before after i = [mkDiffLine removed (i + 1) b])
  ∨ (∃ b, before !! i = Some b ∧ after !! i = Some b
        ∧ pushed before after i = [mkDiffLine unchanged (i + 1) b])
  ∨ (∃ b a, before !! i = Some b ∧ after !! i = Some a ∧ b ≠ a
        ∧ pushed before after i = [mkDiffLine removed (i + 1) b;
                      mkDiffLine added (i + 1) a]).
Proof.
  intros Hi.
  destruct (before !! i) as [b|] eqn:Hb, (after !! i) as [a|] eqn:Ha.
  - destruct (decide (b = a)) as [->|Hne].
    + right; right; left. eauto using pushed_unchanged.
    + right; right; right. eauto 10 using pushed_changed.
  - right; left. eauto using pushed_removed.
  - left. eauto using pushed_added.
  - apply lookup_ge_None in Hb, Ha. lia.
Qed.

Lemma pushed_lineNumber (i : nat) :
  Forall (λ d, lineNumber d = i + 1) (pushed before after i).
Proof.
  unfold pushed, loopBody.
  destruct (before !! i), (after !! i); try case_decide;
    simpl; repeat constructor.
Qed.

Lemma pushed_length (i : nat) : 1 ≤ length (pushed before after i) ≤ 2.
Proof.
  unfold pushed, loopBody.
  destruct (before !! i), (after !! i); try case_decide; simpl; lia.
Qed.

End Aligned.

Lemma computeDiff_bind (beforeCode afterCode : option string) :
  let before := take MAX_LINES (JS.split (JS.or_empty beforeCode)) in
  let after := take MAX_LINES (JS.split (JS.or_empty afterCode)) in
  computeDiff beforeCode afterCode
  = seq 0 (Nat.max (length before) (length after)) ≫= pushed before after.
Proof. intros before after. unfold computeDiff. by rewrite forLoop_bind. Qed.

(** ** Reading one side back from the records *)

Lemma beforeSide_app (r1 r2 : list DiffLine) :
  beforeSide (r1 ++ r2) = beforeSide r1 ++ beforeSide r2.
Proof. unfold beforeSide. by rewrite filter_app, fmap_app. Qed.

Lemma afterSide_app (r1 r2 : list DiffLine) :
  afterSide (r1 ++ r2) = afterSide r1 ++ afterSide r2.
Proof. unfold afterSide. by rewrite filter_app, fmap_app. Qed.

Lemma take_S_lookup {A : Type} (l : list A) (n : nat) :
  take (S n) l = take n l ++ option_list (l !! n).
Proof.
  destruct (l !! n) as [x|] eqn:Hx; simpl.
  - by apply take_S_r.
  - apply lookup_ge_None in Hx. rewrite app_nil_r, !take_ge; [done|lia..].
Qed.

Section Sides.
Variables before after : list string.

Lemma sides_pushed (i : nat) :
  i < Nat.max (length before) (length after) →
  beforeSide (pushed before after i) = option_list (before !! i)
  ∧ afterSide (pushed before after i) = option_list (after !! i).
Proof.
  intros Hi.
  destruct (pushed_cases before after i Hi)
    as [(a & -> & -> & ->)|[(b & -> & -> & ->)|
        [(b & -> & -> & ->)|(b & a & -> & -> & _ & ->)]]];
    by vm_compute.
Qed.

(** Loop invariant: after [n] passes the records hold the first [n] lines
    of each side. *)
Lemma sides_prefix (n : nat) :
  n ≤ Nat.max (length before) (length after) →
  beforeSide (seq 0 n ≫= pushed before after) = take n before
  ∧ afterSide (seq 0 n ≫= pushed before after) = take n after.
Proof.
  induction n as [|n IH]; intros Hn; [done|].
  rewrite seq_S, Nat.add_0_l, bind_app, bind_singleton.
  rewrite beforeSide_app, afterSide_app.
  destruct IH as [-> ->]; [lia|].
  destruct (sides_pushed n) as [-> ->]; [lia|].
  by rewrite !take_S_lookup.
Qed.
End Sides.

Lemma computeDiff_sides (beforeCode afterCode : option string) :
  beforeSide (computeDiff beforeCode afterCode)
  = take MAX_LINES (JS.split (JS.or_empty beforeCode))
  ∧ afterSide (computeDiff beforeCode afterCode)
    = take MAX_LINES (JS.split (JS.or_empty afterCode)).
Proof.
  rewrite computeDiff_bind.
  set (before := take MAX_LINES _). set (after := take MAX_LINES _).
  destruct (sides_prefix before after (Nat.max (length before) (length after)))
    as [-> ->]; [lia|].
  split; apply take_ge; lia.
Qed.

(** C2: the contents of the [removed] and [unchanged] records of
    [computeDiff], in emitted order, are exactly the first 500 lines of the
    before text, and the contents of the [added] and [unchanged] records are
    exactly the first 500 lines of the after text. *)
Theorem computeDiff_reconstructs (beforeCode afterCode : option string) :
  beforeSide (computeDiff beforeCode afterCode)
  = take MAX_LINES (JS.split (JS.or_empty beforeCode))
  ∧ afterSide (computeDiff beforeCode afterCode)
    = take MAX_LINES (JS.split (JS.or_empty afterCode)).
Proof. apply computeDiff_sides. Qed.

(** C10: [computeDiff] of two empty strings is the single record [unchanged] at position
    1 with empty content, because the empty string splits into one empty
    line. *)
Theorem computeDiff_empty_empty :
  JS.split EmptyString = [EmptyString]
  ∧ computeDiff (Some EmptyString) (Some EmptyString) = [mkDiffLine unchanged 1 EmptyString].
Proof. split; reflexivity. Qed.

(** ** Positions of the records *)

Lemma filter_none {A : Type} (P : A → Prop) `{!∀ x, Decision (P x)}
    (l : list A) :
  Forall (λ x, ¬ P x) l → filter P l = [].
Proof.
  induction 1 as [|x l Hx _ IH]; [done|].
  by rewrite filter_cons_False.
Qed.

Lemma filter_all {A : Type} (P : A → Prop) `{!∀ x, Decision (P x)}
    (l : list A) :
  Forall P l → filter P l = l.
Proof.
  induction 1 as [|x l Hx _ IH]; [done|].
  rewrite filter_cons_True by done. by rewrite IH.
Qed.

Lemma StronglySorted_const {A : Type} (f : A → nat) (c : nat) (l : list A) :
  Forall (λ x, f x = c) l → StronglySorted le (f <$> l).
Proof.
  induction 1 as [|x l Hx Hl IH]; simpl; constructor; [done|].
  apply Forall_fmap. eapply Forall_impl; [exact Hl|].
  simpl. intros; lia.
Qed.

Section Positions.
Variables before after : list string.

Lemma bind_range (i n : nat) (d : DiffLine) :
  d ∈ seq i n ≫= pushed before after → i + 1 ≤ lineNumber d ≤ i + n.
Proof.
  intros (j & Hd & Hj)%list_elem_of_bind.
  apply elem_of_seq in Hj.
  pose proof (pushed_lineNumber before after j) as Hall.
  rewrite Forall_forall in Hall. apply Hall in Hd. lia.
Qed.

Lemma bind_sorted (n : nat) :
  StronglySorted le (lineNumber <$> (seq 0 n ≫= pushed before after)).
Proof.
  induction n as [|n IH]; [constructor|].
  rewrite seq_S, Nat.add_0_l, bind_app, bind_singleton, fmap_app.
  apply StronglySorted_app_2; [|done|].
  - intros x1 x2 (d1 & -> & H1)%list_elem_of_fmap
                 (d2 & -> & H2)%list_elem_of_fmap.
    apply bind_range in H1.
    pose proof (pushed_lineNumber before after n) as Hall.
    rewrite Forall_forall in Hall. apply Hall in H2. lia.
  - eapply StronglySorted_const, pushed_lineNumber.
Qed.

Lemma bind_length (n : nat) :
  length (seq 0 n ≫= pushed before after) ≤ 2 * n.
Proof.
  induction n as [|n IH]; [done|].
  rewrite seq_S, Nat.add_0_l, bind_app, bind_singleton, length_app.
  pose proof (pushed_length before after n). lia.
Qed.

(** The records at position [k] are those of pass [k - 1]. *)
Lemma bind_at_position (n k : nat) :
  filter (λ d, lineNumber d = k) (seq 0 n ≫= pushed before after)
  = if decide (1 ≤ k ≤ n) then pushed before after (k - 1) else [].
Proof.
  induction n as [|n IH].
  - case_decide; [lia|done].
  - rewrite seq_S, Nat.add_0_l, bind_app, bind_singleton, filter_app, IH.
    pose proof (pushed_lineNumber before after n) as Hall.
    destruct (decide (k = n + 1)) as [->|Hk].
    + rewrite filter_all by done.
      replace (n + 1 - 1) with n by lia.
      repeat case_decide; try lia. done.
    + rewrite (filter_none _ (pushed before after n)),  app_nil_r.
      * repeat case_decide; try lia; done.
      * eapply Forall_impl; [exact Hall|]. simpl. intros; lia.
Qed.
End Positions.

(** C9: every record of [computeDiff] has a [lineNumber] between 1 and 500,
    the [lineNumber]s never decrease along the result, at most two records
    share a [lineNumber] and two that do are a [removed] record followed by
    an [added] one, and there are at most 1000 records. *)
Theorem computeDiff_positions (beforeCode afterCode : option string) :
  let result := computeDiff beforeCode afterCode in
  Forall (λ d, 1 ≤ lineNumber d ≤ 500) result
  ∧ StronglySorted le (lineNumber <$> result)
  ∧ (∀ k, length (filter (λ d, lineNumber d = k) result) ≤ 2)
  ∧ (∀ k d1 d2, filter (λ d, lineNumber d = k) result = [d1; d2] →
       type d1 = removed ∧ type d2 = added)
  ∧ length result ≤ 1000.
Proof.
  intros result. unfold result. rewrite computeDiff_bind.
  set (before := take MAX_LINES _). set (after := take MAX_LINES _).
  set (maxLen := Nat.max _ _).
  assert (maxLen ≤ 500) as Hmax.
  { unfold maxLen, before, after. rewrite !length_take. unfold MAX_LINES. lia. }
  split_and!.
  - apply Forall_forall. intros d Hd%bind_range. lia.
  - apply bind_sorted.
  - intros k. rewrite bind_at_position. case_decide; simpl; [|lia].
    apply pushed_length.
  - intros k d1 d2. rewrite bind_at_position. case_decide; [|done].
    destruct (pushed_cases before after (k - 1))
      as [(a & _ & _ & ->)|[(b & _ & _ & ->)|
          [(b & _ & _ & ->)|(b & a & _ & _ & _ & ->)]]];
      [fold maxLen; lia|try done..].
    by intros [= <- <-].
  - pose proof (bind_length before after maxLen). lia.
Qed.

(** ** Runs of passes of one kind *)

(** If every pass over the lines of [rest], starting at index [k], pushes one
    record built by [f], the passes together push [f] mapped over [rest]. *)
Lemma bind_run {B : Type} (p : nat → list B) (f : nat → string → B)
    (rest : list string) :
  ∀ k : nat,
    (∀ j l, rest !! j = Some l → p (k + j) = [f (k + j) l]) →
    seq k (length rest) ≫= p = imap (λ j l, f (k + j) l) rest.
Proof.
  induction rest as [|x rest IH]; intros k Hp; [done|].
  simpl length. rewrite <- cons_seq, bind_cons, imap_cons.
  specialize (Hp 0 x eq_refl) as Hx.
  rewrite Nat.add_0_r in Hx. rewrite Hx. simpl.
  rewrite Nat.add_0_r. f_equal.
  rewrite IH.
  - apply imap_ext. intros j l _. simpl. by replace (k + S j) with (S k + j) by lia.
  - intros j l Hj. replace (S k + j) with (k + S j) by lia. by apply Hp.
Qed.

(** C5: where both truncated sides have a line at index [i] and the two
    lines differ, [computeDiff] contains a [removed] record at position
    [i + 1] with the before line, immediately followed by an [added] record
    at position [i + 1] with the after line; the records in front of the
    pair are at positions up to [i], those behind it from [i + 2] on. *)
Theorem computeDiff_changed_pair (beforeCode afterCode : option string)
    (i : nat) (b a : string) :
  take MAX_LINES (JS.split (JS.or_empty beforeCode)) !! i = Some b →
  take MAX_LINES (JS.split (JS.or_empty afterCode)) !! i = Some a →
  b ≠ a →
  ∃ pre post,
    computeDiff beforeCode afterCode
    = pre ++ [mkDiffLine removed (i + 1) b; mkDiffLine added (i + 1) a] ++ post
    ∧ Forall (λ d, lineNumber d ≤ i) pre
    ∧ Forall (λ d, i + 2 ≤ lineNumber d) post.
Proof.
  rewrite computeDiff_bind.
  set (before := take MAX_LINES _). set (after := take MAX_LINES _).
  set (maxLen := Nat.max _ _).
  intros Hb Ha Hne.
  assert (i < maxLen) as Hi.
  { apply lookup_lt_Some in Hb. unfold maxLen. lia. }
  exists (seq 0 i ≫= pushed before after),
         (seq (S i) (maxLen - S i) ≫= pushed before after).
  split_and!.
  - replace maxLen with (i + S (maxLen - S i)) at 1 by lia.
    rewrite seq_app, Nat.add_0_l, <- cons_seq, bind_app, bind_cons.
    by rewrite (pushed_changed before after i b a).
  - apply Forall_forall. intros d Hd%bind_range. lia.
  - apply Forall_forall. intros d Hd%bind_range. lia.
Qed.

Lemma computeDiff_changed_pair_witness :
  ∃ pre post,
    computeDiff (Some (JS.join ["a"; "b"; "c"])) (Some (JS.join ["a"; "x"; "c"]))
    = pre ++ [mkDiffLine removed 2 "b"; mkDiffLine added 2 "x"] ++ post
    ∧ Forall (λ d, lineNumber d ≤ 1) pre
    ∧ Forall (λ d, 3 ≤ lineNumber d) post.
Proof.
  apply (computeDiff_changed_pair
           (Some (JS.join ["a"; "b"; "c"])) (Some (JS.join ["a"; "x"; "c"]))
           1 "b" "x"); [reflexivity | reflexivity | discriminate].
Defined.

(** ** A text against itself *)

Lemma computeDiff_same (x : option string) :
  computeDiff x x
  = imap (λ j l, mkDiffLine unchanged (j + 1) l)
      (take MAX_LINES (JS.split (JS.or_empty x))).
Proof.
  rewrite computeDiff_bind. set (lines := take MAX_LINES _).
  rewrite Nat.max_id.
  rewrite (bind_run _ (λ j l, mkDiffLine unchanged (j + 1) l) lines 0); [done|].
  intros j l Hl. by apply pushed_unchanged.
Qed.

(** C7, claim as written, fails on a text of 501 lines: the diff of the text
    against itself has 500 records. *)
Lemma computeDiff_same_count_counterexample :
  let x := Some (JS.join (replicate 501 EmptyString)) in
  length (JS.split (JS.or_empty x)) = 501
  ∧ length (computeDiff x x) = 500
  ∧ length (computeDiff x x) ≠ length (JS.split (JS.or_empty x)).
Proof. vm_compute. split_and!; [reflexivity | reflexivity | discriminate]. Qed.

(** C7, amended: the diff of a text against itself consists of [unchanged]
    records only, and their count is the number of lines of the text capped
    at 500. *)
Theorem computeDiff_same_unchanged (x : option string) :
  Forall (λ d, type d = unchanged) (computeDiff x x)
  ∧ length (computeDiff x x)
    = Nat.min (length (JS.split (JS.or_empty x))) MAX_LINES.
Proof.
  rewrite computeDiff_same. split.
  - apply Forall_forall.
    intros d (j & l & -> & _)%elem_of_lookup_imap. done.
  - rewrite length_imap, length_take. lia.
Qed.

(** ** An absent or empty side *)

(** C1: the code on an added file and on a deleted file.  The registration
    text of the component gives the empty string as the before text of a
    file added in a commit and as the after text of a deleted file.  On
    such inputs the empty side is split into one empty line, so
    [computeDiff] reports a [removed] empty line in front of the added
    file (header: 2 additions, 1 deletion for a file of two lines) and an
    [added] empty line within the deleted one, instead of records that are
    all [added], or all [removed], one per line. *)
Theorem computeDiff_added_file_defect :
  computeDiff (Some EmptyString) (Some (JS.join ["a"; "b"]))
  = [mkDiffLine removed 1 EmptyString; mkDiffLine added 1 "a";
     mkDiffLine added 2 "b"]
  ∧ ¬ Forall (λ d, type d = added)
        (computeDiff (Some EmptyString) (Some (JS.join ["a"; "b"])))
  ∧ length (computeDiff (Some EmptyString) (Some (JS.join ["a"; "b"])))
    ≠ length (JS.split (JS.join ["a"; "b"]))
  ∧ DiffViewer.additions (Some EmptyString) (Some (JS.join ["a"; "b"])) = 2
  ∧ DiffViewer.deletions (Some EmptyString) (Some (JS.join ["a"; "b"])) = 1
  ∧ computeDiff (Some (JS.join ["a"; "b"])) (Some EmptyString)
    = [mkDiffLine removed 1 "a"; mkDiffLine added 1 EmptyString;
       mkDiffLine removed 2 "b"]
  ∧ ¬ Forall (λ d, type d = removed)
        (computeDiff (Some (JS.join ["a"; "b"])) (Some EmptyString))
  ∧ DiffViewer.additions (Some (JS.join ["a"; "b"])) (Some EmptyString) = 1
  ∧ DiffViewer.deletions (Some (JS.join ["a"; "b"])) (Some EmptyString) = 2.
Proof.
  split_and!; try reflexivity.
  - intros H. by apply Forall_inv in H.
  - discriminate.
  - intros H. by apply Forall_inv_tail, Forall_inv in H.
Qed.

(** How far the defect reaches: with one side absent or empty, position 1
    holds one [unchanged] record when the first line of the other side is
    empty, and otherwise a [removed] record followed by an [added] record
    (the absent side counting as one empty line); only from the second
    line on, within the first 500, does every line of the other side give
    exactly one record, [added] when the before side is the empty one and
    [removed] when the after side is. *)
Lemma computeDiff_empty_side (e : option string) (text : string) :
  JS.truthy e = false →
  ∃ l0 rest,
    take MAX_LINES (JS.split text) = l0 :: rest
    ∧ computeDiff e (Some text)
      = (if decide (l0 = EmptyString) then [mkDiffLine unchanged 1 EmptyString]
         else [mkDiffLine removed 1 EmptyString; mkDiffLine added 1 l0])
        ++ imap (λ j l, mkDiffLine added (j + 2) l) rest
    ∧ computeDiff (Some text) e
      = (if decide (l0 = EmptyString) then [mkDiffLine unchanged 1 EmptyString]
         else [mkDiffLine removed 1 l0; mkDiffLine added 1 EmptyString])
        ++ imap (λ j l, mkDiffLine removed (j + 2) l) rest.
Proof.
  intros He%or_empty_falsy.
  destruct (split_cons text) as (l0 & ls & Hsplit).
  exists l0, (take 499 ls).
  assert (take MAX_LINES (JS.split text) = l0 :: take 499 ls) as Htake
    by (by rewrite Hsplit).
  split; [done|].
  rewrite !computeDiff_bind, He, or_empty_Some, Htake.
  set (rest := take 499 ls).
  change (take MAX_LINES (JS.split EmptyString)) with [EmptyString].
  replace (Nat.max (length [EmptyString]) (length (l0 :: rest)))
    with (S (length rest)) by (simpl; lia).
  replace (Nat.max (length (l0 :: rest)) (length [EmptyString]))
    with (S (length rest)) by (simpl; lia).
  rewrite <- !cons_seq, !bind_cons.
  split; f_equal.
  - destruct (decide (l0 = EmptyString)) as [->|Hne].
    + by apply pushed_unchanged.
    + by apply pushed_changed.
  - rewrite (bind_run _ (λ j l, mkDiffLine added (j + 1) l) rest 1).
    + apply imap_ext. intros j l _. simpl. f_equal. lia.
    + intros j l Hl. by apply pushed_added.
  - destruct (decide (l0 = EmptyString)) as [->|Hne].
    + by apply pushed_unchanged.
    + by apply pushed_changed.
  - rewrite (bind_run _ (λ j l, mkDiffLine removed (j + 1) l) rest 1).
    + apply imap_ext. intros j l _. simpl. f_equal. lia.
    + intros j l Hl. by apply pushed_removed.
Qed.

(** ** Split view against unified view *)

(** C6, claim as written, fails on two lines that swap places: the split
    view flags no line, since each text occurs on the other side, while
    [computeDiff] marks both lines of the before side [removed] and both
    lines of the after side [added]. *)
Lemma split_unified_counterexample :
  let beforeCode := Some (JS.join ["a"; "b"]) in
  let afterCode := Some (JS.join ["b"; "a"]) in
  DiffViewer.splitBefore beforeCode afterCode = [(1, false, "a"); (2, false, "b")]
  ∧ DiffViewer.splitAfter beforeCode afterCode = [(1, false, "b"); (2, false, "a")]
  ∧ computeDiff beforeCode afterCode
    = [mkDiffLine removed 1 "a"; mkDiffLine added 1 "b";
       mkDiffLine removed 2 "b"; mkDiffLine added 2 "a"]
  ∧ ¬ (DiffViewer.isRemoved afterCode "a" = true
       ↔ mkDiffLine removed 1 "a" ∈ computeDiff beforeCode afterCode)
  ∧ ¬ (DiffViewer.isAdded beforeCode "b" = true
       ↔ mkDiffLine added 1 "b" ∈ computeDiff beforeCode afterCode).
Proof.
  intros beforeCode afterCode.
  assert (computeDiff beforeCode afterCode
          = [mkDiffLine removed 1 "a"; mkDiffLine added 1 "b";
             mkDiffLine removed 2 "b"; mkDiffLine added 2 "a"]) as Hdiff
    by (vm_compute; reflexivity).
  assert (DiffViewer.isRemoved afterCode "a" = false) as Hrem
    by (vm_compute; reflexivity).
  assert (DiffViewer.isAdded beforeCode "b" = false) as Hadd
    by (vm_compute; reflexivity).
  split_and!; [vm_compute; reflexivity..|exact Hdiff| |].
  - rewrite Hrem, Hdiff. intros [_ H].
    discriminate H. apply list_elem_of_here.
  - rewrite Hadd, Hdiff. intros [_ H].
    discriminate H. apply list_elem_of_further, list_elem_of_here.
Qed.

Lemma isRemoved_not_elem (afterCode : option string) (line : string) :
  DiffViewer.isRemoved afterCode line = true →
  line ∉ JS.split (JS.or_empty afterCode).
Proof.
  unfold DiffViewer.isRemoved, DiffViewer.afterLinesSet, DiffViewer.afterLines.
  intros H%negb_true_iff%bool_decide_eq_false.
  by rewrite elem_of_list_to_set in H.
Qed.

Lemma isAdded_not_elem (beforeCode : option string) (line : string) :
  DiffViewer.isAdded beforeCode line = true →
  line ∉ JS.split (JS.or_empty beforeCode).
Proof.
  unfold DiffViewer.isAdded, DiffViewer.beforeLinesSet, DiffViewer.beforeLines.
  intros H%negb_true_iff%bool_decide_eq_false.
  by rewrite elem_of_list_to_set in H.
Qed.

Lemma pushed_elem_computeDiff (beforeCode afterCode : option string)
    (i : nat) (d : DiffLine) :
  let before := take MAX_LINES (JS.split (JS.or_empty beforeCode)) in
  let after := take MAX_LINES (JS.split (JS.or_empty afterCode)) in
  i < Nat.max (length before) (length after) →
  d ∈ pushed before after i →
  d ∈ computeDiff beforeCode afterCode.
Proof.
  intros before after Hi Hd. rewrite computeDiff_bind. cbv zeta.
  apply list_elem_of_bind. exists i. split; [done|].
  apply elem_of_seq. fold before after. lia.
Qed.

(** C6, amended: the flags of the split view imply the kinds of
    [computeDiff], not the converse.  A row of the before column flagged
    removed is a [removed] record of [computeDiff] at the same position
    with the same text, and a row of the after column flagged added is an
    [added] record at the same position with the same text. *)
Theorem split_flag_implies_unified (beforeCode afterCode : option string)
    (n : nat) (line : string) :
  ((n, true, line) ∈ DiffViewer.splitBefore beforeCode afterCode →
   mkDiffLine removed n line ∈ computeDiff beforeCode afterCode)
  ∧ ((n, true, line) ∈ DiffViewer.splitAfter beforeCode afterCode →
     mkDiffLine added n line ∈ computeDiff beforeCode afterCode).
Proof.
  unfold DiffViewer.splitBefore, DiffViewer.splitAfter,
    DiffViewer.beforeLines, DiffViewer.afterLines.
  change 500 with MAX_LINES.
  set (before := take MAX_LINES (JS.split (JS.or_empty beforeCode))).
  set (after := take MAX_LINES (JS.split (JS.or_empty afterCode))).
  split.
  - intros (i & l & [= -> Hflag ->] & Hl)%elem_of_lookup_imap.
    symmetry in Hflag. apply isRemoved_not_elem in Hflag.
    apply (pushed_elem_computeDiff _ _ i).
    { apply lookup_lt_Some in Hl. fold before. lia. }
    fold before after.
    destruct (after !! i) as [a|] eqn:Ha.
    + rewrite (pushed_changed before after i l a); [apply list_elem_of_here|done..|].
      intros ->. apply Hflag.
      apply lookup_take_Some in Ha as [Ha _].
      by eapply list_elem_of_lookup_2.
    + rewrite (pushed_removed before after i l); [apply list_elem_of_here|done..].
  - intros (i & l & [= -> Hflag ->] & Hl)%elem_of_lookup_imap.
    symmetry in Hflag. apply isAdded_not_elem in Hflag.
    apply (pushed_elem_computeDiff _ _ i).
    { apply lookup_lt_Some in Hl. fold after. lia. }
    fold before after.
    destruct (before !! i) as [b|] eqn:Hb.
    + rewrite (pushed_changed before after i b l);
        [apply list_elem_of_further, list_elem_of_here|done..|].
      intros ->. apply Hflag.
      apply lookup_take_Some in Hb as [Hb _].
      by eapply list_elem_of_lookup_2.
    + rewrite (pushed_added before after i l); [apply list_elem_of_here|done..].
Qed.

Lemma split_flag_implies_unified_witness :
  mkDiffLine removed 1 "a" ∈ computeDiff (Some "a") (Some "b")
  ∧ mkDiffLine added 1 "b" ∈ computeDiff (Some "a") (Some "b").
Proof.
  split.
  - apply (split_flag_implies_unified (Some "a") (Some "b") 1 "a").
    vm_compute. apply list_elem_of_here.
  - apply (split_flag_implies_unified (Some "a") (Some "b") 1 "b").
    vm_compute. apply list_elem_of_here.
Defined.

(** ** Annotation lookup *)

Lemma find_head_filter {A : Type} (P : A → Prop) `{!∀ x, Decision (P x)}
    (l : list A) :
  find (λ x, bool_decide (P x)) l = head (filter P l).
Proof.
  induction l as [|x l IH]; [done|]. simpl.
  destruct (decide (P x)) as [Hx|Hx].
  - by rewrite bool_decide_eq_true_2, filter_cons_True.
  - by rewrite bool_decide_eq_false_2, filter_cons_False.
Qed.

Lemma getAnnotationForLine_Some (annotations : list Annotation.t)
    (lineNumber : nat) (a : Annotation.t) :
  DiffViewer.getAnnotationForLine annotations lineNumber = Some a →
  a ∈ annotations ∧ Annotation.line a = Z.of_nat lineNumber.
Proof.
  unfold DiffViewer.getAnnotationForLine.
  intros [Hin Hline%bool_decide_eq_true]%find_some.
  by apply list_elem_of_In in Hin.
Qed.

(** C8: with an [added] record at position 4 and exactly one annotation whose
    [line] is 4, the lookup at the record's position returns that
    annotation; and an annotation whose [line] lies beyond the last position
    of the truncated texts is returned by no lookup of either view (the
    lookup is a total function and yields [None] when the annotation is the
    only one). *)
Theorem annotation_lookup :
  (∀ (annotations : list Annotation.t) (a : Annotation.t) (r : DiffLine),
     type r = added → lineNumber r = 4 →
     filter (λ x, Annotation.line x = 4%Z) annotations = [a] →
     DiffViewer.getAnnotationForLine annotations (lineNumber r) = Some a)
  ∧ (∀ (beforeCode afterCode : option string)
       (annotations : list Annotation.t) (a : Annotation.t),
       (Z.of_nat
          (Nat.max
             (length (take MAX_LINES (JS.split (JS.or_empty beforeCode))))
             (length (take MAX_LINES (JS.split (JS.or_empty afterCode)))))
        < Annotation.line a)%Z →
       (∀ r, r ∈ computeDiff beforeCode afterCode →
          DiffViewer.getAnnotationForLine annotations (lineNumber r) ≠ Some a
          ∧ DiffViewer.getAnnotationForLine [a] (lineNumber r) = None)
       ∧ (∀ idx, idx < length (take 500 (DiffViewer.afterLines afterCode)) →
            DiffViewer.getAnnotationForLine annotations (idx + 1) ≠ Some a
            ∧ DiffViewer.getAnnotationForLine [a] (idx + 1) = None)).
Proof.
  split.
  - intros annotations a r _ -> Hone.
    unfold DiffViewer.getAnnotationForLine.
    change (Z.of_nat 4) with 4%Z.
    by rewrite find_head_filter, Hone.
  - intros beforeCode afterCode annotations a.
    unfold DiffViewer.afterLines. change 500 with MAX_LINES.
    set (before := take MAX_LINES _). set (after := take MAX_LINES _).
    intros Hbeyond.
    assert (∀ n l, n ≤ Nat.max (length before) (length after) →
              DiffViewer.getAnnotationForLine l n ≠ Some a) as Hno.
    { intros n l Hn [_ Hline]%getAnnotationForLine_Some. lia. }
    assert (∀ n, n ≤ Nat.max (length before) (length after) →
              DiffViewer.getAnnotationForLine [a] n = None) as Hnone.
    { intros n Hn.
      destruct (DiffViewer.getAnnotationForLine [a] n) as [a'|] eqn:Hget; [|done].
      pose proof Hget as [Hin _]%getAnnotationForLine_Some.
      apply list_elem_of_singleton in Hin as ->.
      by apply Hno in Hget. }
    split.
    + intros r Hr. rewrite computeDiff_bind in Hr. apply bind_range in Hr.
      fold before after in Hr. split; [apply Hno | apply Hnone]; lia.
    + intros idx Hidx. split; [apply Hno | apply Hnone]; lia.
Qed.

Lemma annotation_lookup_witness :
  DiffViewer.getAnnotationForLine
    [Annotation.mk 2 "renamed" info; Annotation.mk 4 "new branch" insight]
    (lineNumber (mkDiffLine added 4 "d"))
  = Some (Annotation.mk 4 "new branch" insight)
  ∧ DiffViewer.getAnnotationForLine
      [Annotation.mk 2 "renamed" info; Annotation.mk 9 "past the end" warning]
      (lineNumber (mkDiffLine added 4 "d"))
    ≠ Some (Annotation.mk 9 "past the end" warning).
Proof.
  split.
  - apply (proj1 annotation_lookup); reflexivity.
  - apply (proj2 annotation_lookup
             (Some (JS.join ["a"; "b"; "c"])) (Some (JS.join ["a"; "b"; "c"; "d"]))
             [Annotation.mk 2 "renamed" info; Annotation.mk 9 "past the end" warning]
             (Annotation.mk 9 "past the end" warning)).
    + vm_compute. reflexivity.
    + vm_compute. do 3 apply list_elem_of_further. apply list_elem_of_here.
Defined.

(** ** Truncation *)

(** C4: for texts of 600 lines each, the records of [computeDiff] lie at
    positions 1 to 500, every one of these positions is present, the two
    sides read back from the records are the first 500 lines of each text,
    and the banner condition holds with 600 as the number of lines shown. *)
Theorem computeDiff_truncates_600 (beforeCode afterCode : option string) :
  length (DiffViewer.beforeLines beforeCode) = 600 →
  length (DiffViewer.afterLines afterCode) = 600 →
  let result := computeDiff beforeCode afterCode in
  Forall (λ d, 1 ≤ lineNumber d ≤ 500) result
  ∧ (∀ k, 1 ≤ k ≤ 500 → ∃ d, d ∈ result ∧ lineNumber d = k)
  ∧ beforeSide result = take 500 (DiffViewer.beforeLines beforeCode)
  ∧ afterSide result = take 500 (DiffViewer.afterLines afterCode)
  ∧ length (beforeSide result) = 500
  ∧ length (afterSide result) = 500
  ∧ DiffViewer.truncated beforeCode afterCode = true
  ∧ DiffViewer.fullFileLines beforeCode afterCode = 600.
Proof.
  intros Hb Ha result.
  unfold DiffViewer.truncated, DiffViewer.fullFileLines.
  unfold DiffViewer.beforeLines, DiffViewer.afterLines in *.
  destruct (computeDiff_sides beforeCode afterCode) as [Hbs Has].
  fold result in Hbs, Has. unfold MAX_LINES in Hbs, Has.
  assert (Nat.max
            (length (take MAX_LINES (JS.split (JS.or_empty beforeCode))))
            (length (take MAX_LINES (JS.split (JS.or_empty afterCode)))) = 500)
    as Hmax.
  { rewrite !length_take, Hb, Ha. reflexivity. }
  split_and!.
  - apply Forall_forall. intros d Hd. unfold result in Hd.
    rewrite computeDiff_bind in Hd. apply bind_range in Hd. lia.
  - intros k Hk.
    set (before := take MAX_LINES (JS.split (JS.or_empty beforeCode))).
    set (after := take MAX_LINES (JS.split (JS.or_empty afterCode))).
    pose proof (pushed_length before after (k - 1)) as Hlen.
    pose proof (pushed_lineNumber before after (k - 1)) as Hall.
    destruct (pushed before after (k - 1)) as [|d ds] eqn:Hp;
      [simpl in Hlen; lia|].
    exists d. split.
    + apply (pushed_elem_computeDiff _ _ (k - 1)).
      * fold before after. unfold before, after. lia.
      * fold before after. rewrite Hp. apply list_elem_of_here.
    + apply Forall_inv in Hall. lia.
  - exact Hbs.
  - exact Has.
  - rewrite Hbs, length_take, Hb. reflexivity.
  - rewrite Has, length_take, Ha. reflexivity.
  - rewrite Hb. reflexivity.
  - rewrite Hb, Ha. reflexivity.
Qed.

Lemma computeDiff_truncates_600_witness :
  let beforeCode := Some (JS.join (replicate 600 "x")) in
  let afterCode := Some (JS.join (replicate 600 "y")) in
  let result := computeDiff beforeCode afterCode in
  Forall (λ d, 1 ≤ lineNumber d ≤ 500) result
  ∧ (∀ k, 1 ≤ k ≤ 500 → ∃ d, d ∈ result ∧ lineNumber d = k)
  ∧ beforeSide result = take 500 (DiffViewer.beforeLines beforeCode)
  ∧ afterSide result = take 500 (DiffViewer.afterLines afterCode)
  ∧ length (beforeSide result) = 500
  ∧ length (afterSide result) = 500
  ∧ DiffViewer.truncated beforeCode afterCode = true
  ∧ DiffViewer.fullFileLines beforeCode afterCode = 600.
Proof.
  apply (computeDiff_truncates_600
           (Some (JS.join (replicate 600 "x")))
           (Some (JS.join (replicate 600 "y"))));
    vm_compute; reflexivity.
Defined.

(** ** Termination of the two loops *)

(** The [for] loop of [computeDiff], run as a [while], exits with the result
    of [computeDiff] whenever the fuel exceeds the number of passes. *)
Lemma computeDiffFuel_enough (fuel : nat) (beforeCode afterCode : option string) :
  Nat.max (length (take MAX_LINES (JS.split (JS.or_empty beforeCode))))
          (length (take MAX_LINES (JS.split (JS.or_empty afterCode)))) < fuel →
  computeDiffFuel fuel beforeCode afterCode
  = Some (computeDiff beforeCode afterCode).
Proof.
  intros Hfuel. unfold computeDiffFuel, computeDiff.
  set (before := take MAX_LINES (JS.split (JS.or_empty beforeCode))) in *.
  set (after := take MAX_LINES (JS.split (JS.or_empty afterCode))) in *.
  set (maxLen := Nat.max (length before) (length after)) in *.
  pose proof (while_counted (loopBody before after) maxLen 0 fuel [] Hfuel)
    as Hrun.
  rewrite Nat.add_0_l in Hrun. rewrite Hrun. simpl.
  by rewrite forLoop_fold.
Qed.

Lemma maxLen_bound (beforeCode afterCode : option string) :
  Nat.max (length (take MAX_LINES (JS.split (JS.or_empty beforeCode))))
          (length (take MAX_LINES (JS.split (JS.or_empty afterCode))))
  ≤ MAX_LINES.
Proof. rewrite !length_take. lia. Qed.

(** Once the after side is exhausted while the current before line is a
    text that occurs in the after side, the earlier loop pushes an [added]
    record and advances [afterIdx] only: it never exits. *)
Lemma legacy_stuck (beforeLines afterLines : list string)
    (beforeIdx : nat) (b : string) :
  beforeLines !! beforeIdx = Some b →
  b ∈ afterLines →
  ∀ (fuel afterIdx : nat) (diffLines : list DiffLine),
    length afterLines ≤ afterIdx →
    JS.while (Legacy.cond beforeLines afterLines)
      (Legacy.body beforeLines afterLines)
      fuel (Legacy.mkLoopState beforeIdx afterIdx diffLines)
    = None.
Proof.
  intros Hb Hin fuel.
  induction fuel as [|fuel IH]; intros afterIdx diffLines Hidx; [done|].
  simpl. unfold Legacy.cond at 1. simpl.
  destruct (Nat.ltb_spec beforeIdx (length beforeLines)) as [_|Hge];
    [|apply lookup_lt_Some in Hb; lia].
  simpl. unfold Legacy.body at 2. simpl.
  rewrite Hb, (lookup_ge_None_2 afterLines afterIdx) by done.
  case_decide; [done|]. simpl.
  rewrite bool_decide_eq_true_2 by done. simpl.
  apply IH. lia.
Qed.

(** The same on two lines that swap places: two passes, then no exit. *)
Lemma legacy_swapped_lines_diverge (fuel : nat) :
  Legacy.diffLinesFuel fuel (Some (JS.join ["a"; "b"])) (Some (JS.join ["b"; "a"]))
  = None.
Proof.
  unfold Legacy.diffLinesFuel.
  change (JS.split (JS.or_empty (Some (JS.join ["a"; "b"])))) with ["a"; "b"].
  change (JS.split (JS.or_empty (Some (JS.join ["b"; "a"])))) with ["b"; "a"].
  destruct fuel as [|[|fuel]]; [done..|].
  simpl.
  change (Legacy.body ["a"; "b"] ["b"; "a"]
            (Legacy.body ["a"; "b"] ["b"; "a"] (Legacy.mkLoopState 0 0 [])))
    with (Legacy.mkLoopState 1 2
            [mkDiffLine added 1 "b"; mkDiffLine unchanged 2 "a"]).
  rewrite (legacy_stuck ["a"; "b"] ["b"; "a"] 1 "b"); [done..| |simpl; lia].
  apply list_elem_of_here.
Qed.

(** C3: the loop of [computeDiff] exits within 501 iterations on every pair
    of texts and returns the result of [computeDiff]; the loop of the
    earlier component does not exit on the texts ["x\nx"] and ["x"],
    whatever the number of iterations allowed. *)
Theorem diff_loops_termination :
  (∀ beforeCode afterCode : option string,
     computeDiffFuel (S MAX_LINES) beforeCode afterCode
     = Some (computeDiff beforeCode afterCode))
  ∧ (∀ fuel : nat,
       Legacy.diffLinesFuel fuel (Some (JS.join ["x"; "x"])) (Some "x") = None).
Proof.
  split.
  - intros beforeCode afterCode. apply computeDiffFuel_enough.
    pose proof (maxLen_bound beforeCode afterCode). lia.
  - intros fuel. unfold Legacy.diffLinesFuel.
    change (JS.split (JS.or_empty (Some (JS.join ["x"; "x"])))) with ["x"; "x"].
    change (JS.split (JS.or_empty (Some "x"))) with ["x"].
    destruct fuel as [|fuel]; [done|].
    simpl.
    change (Legacy.body ["x"; "x"] ["x"] (Legacy.mkLoopState 0 0 []))
      with (Legacy.mkLoopState 1 1 [mkDiffLine unchanged 1 "x"]).
    rewrite (legacy_stuck ["x"; "x"] ["x"] 1 "x"); [done..| |simpl; lia].
    apply list_elem_of_here.
Qed.

(** * Further properties of the component *)

(** ** Positions of the records on each side *)

Lemma beforeSideNumbered_app (r1 r2 : list DiffLine) :
  beforeSideNumbered (r1 ++ r2) = beforeSideNumbered r1 ++ beforeSideNumbered r2.
Proof. unfold beforeSideNumbered. by rewrite filter_app, fmap_app. Qed.

Lemma afterSideNumbered_app (r1 r2 : list DiffLine) :
  afterSideNumbered (r1 ++ r2) = afterSideNumbered r1 ++ afterSideNumbered r2.
Proof. unfold afterSideNumbered. by rewrite filter_app, fmap_app. Qed.

Lemma imap_take_S {A B : Type} (f : nat → A → B) (l : list A) (n : nat) :
  imap f (take (S n) l) = imap f (take n l) ++ option_list (f n <$> l !! n).
Proof.
  rewrite take_S_lookup, imap_app.
  destruct (l !! n) as [x|] eqn:Hx; simpl; [|done].
  apply lookup_lt_Some in Hx.
  rewrite length_take, Nat.min_l, Nat.add_0_r by lia. done.
Qed.

Section NumberedSides.
Variables before after : list string.

Lemma numbered_pushed (i : nat) :
  i < Nat.max (length before) (length after) →
  beforeSideNumbered (pushed before after i)
  = option_list ((λ l, (i + 1, l)) <$> before !! i)
  ∧ afterSideNumbered (pushed before after i)
    = option_list ((λ l, (i + 1, l)) <$> after !! i).
Proof.
  intros Hi.
  destruct (pushed_cases before after i Hi)
    as [(a & -> & -> & ->)|[(b & -> & -> & ->)|
        [(b & -> & -> & ->)|(b & a & -> & -> & _ & ->)]]];
    by vm_compute.
Qed.

Lemma numbered_prefix (n : nat) :
  n ≤ Nat.max (length before) (length after) →
  beforeSideNumbered (seq 0 n ≫= pushed before after)
  = imap (λ i l, (i + 1, l)) (take n before)
  ∧ afterSideNumbered (seq 0 n ≫= pushed before after)
    = imap (λ i l, (i + 1, l)) (take n after).
Proof.
  induction n as [|n IH]; intros Hn; [done|].
  rewrite seq_S, Nat.add_0_l, bind_app, bind_singleton.
  rewrite beforeSideNumbered_app, afterSideNumbered_app.
  destruct IH as [-> ->]; [lia|].
  destruct (numbered_pushed n) as [-> ->]; [lia|].
  by rewrite !imap_take_S.
Qed.
End NumberedSides.

Lemma computeDiff_numbered (beforeCode afterCode : option string) :
  beforeSideNumbered (computeDiff beforeCode afterCode)
  = imap (λ i l, (i + 1, l)) (take MAX_LINES (JS.split (JS.or_empty beforeCode)))
  ∧ afterSideNumbered (computeDiff beforeCode afterCode)
    = imap (λ i l, (i + 1, l)) (take MAX_LINES (JS.split (JS.or_empty afterCode))).
Proof.
  rewrite computeDiff_bind. cbv zeta.
  set (before := take MAX_LINES (JS.split (JS.or_empty beforeCode))).
  set (after := take MAX_LINES (JS.split (JS.or_empty afterCode))).
  destruct (numbered_prefix before after (Nat.max (length before) (length after)))
    as [-> ->]; [lia|].
  by rewrite !take_ge by lia.
Qed.

(** X1: each [removed] or [unchanged] record of [computeDiff] sits at the
    position of its line in the first 500 lines of the before text, and
    each [added] or [unchanged] record at the position of its line in the
    first 500 lines of the after text: read with their positions, the two
    sides are the numbered lines of the two texts. *)
Theorem computeDiff_side_positions (beforeCode afterCode : option string) :
  beforeSideNumbered (computeDiff beforeCode afterCode)
  = imap (λ i l, (i + 1, l)) (take MAX_LINES (JS.split (JS.or_empty beforeCode)))
  ∧ afterSideNumbered (computeDiff beforeCode afterCode)
    = imap (λ i l, (i + 1, l)) (take MAX_LINES (JS.split (JS.or_empty afterCode))).
Proof. apply computeDiff_numbered. Qed.

(** ** The counts of the header *)

Lemma filter_or_length {A : Type} (P Q : A → Prop)
    `{!∀ x, Decision (P x)} `{!∀ x, Decision (Q x)} (l : list A) :
  (∀ x, P x → Q x → False) →
  length (filter (λ x, P x ∨ Q x) l)
  = length (filter P l) + length (filter Q l).
Proof.
  intros Hdisj. induction l as [|x l IH]; [done|].
  rewrite !filter_cons.
  destruct (decide (P x)) as [HP|HP], (decide (Q x)) as [HQ|HQ];
    [by destruct (Hdisj x)|..];
    destruct (decide (P x ∨ Q x)) as [HPQ|HPQ]; simpl; try lia; tauto.
Qed.

Lemma filter_or_none {A : Type} (P Q : A → Prop)
    `{!∀ x, Decision (P x)} `{!∀ x, Decision (Q x)} (l : list A) :
  length (filter P l) = 0 →
  filter (λ x, P x ∨ Q x) l = filter Q l.
Proof.
  induction l as [|x l IH]; [done|].
  rewrite !filter_cons.
  destruct (decide (P x)) as [HP|HP]; [done|]. intros Hl.
  destruct (decide (Q x)) as [HQ|HQ], (decide (P x ∨ Q x)) as [HPQ|HPQ];
    try tauto; by rewrite IH.
Qed.

Lemma length_by_type (l : list DiffLine) :
  length l
  = length (filter (λ d, type d = added) l)
    + length (filter (λ d, type d = removed) l)
    + length (filter (λ d, type d = unchanged) l).
Proof.
  induction l as [|[[] n c] l IH]; [done|..];
    rewrite !filter_cons; simpl; lia.
Qed.

(** X2: the counts of the header add up to the lines shown: additions plus
    unchanged is the number of after lines capped at 500, deletions plus
    unchanged the number of before lines capped at 500, and the three counts
    together are the number of records. *)
Theorem header_counts (beforeCode afterCode : option string) :
  DiffViewer.additions beforeCode afterCode
  + DiffViewer.unchangedCount beforeCode afterCode
  = Nat.min 500 (length (DiffViewer.afterLines afterCode))
  ∧ DiffViewer.deletions beforeCode afterCode
    + DiffViewer.unchangedCount beforeCode afterCode
    = Nat.min 500 (length (DiffViewer.beforeLines beforeCode))
  ∧ length (DiffViewer.diffLines beforeCode afterCode)
    = DiffViewer.additions beforeCode afterCode
      + DiffViewer.deletions beforeCode afterCode
      + DiffViewer.unchangedCount beforeCode afterCode.
Proof.
  unfold DiffViewer.additions, DiffViewer.deletions, DiffViewer.unchangedCount,
    DiffViewer.diffLines, DiffViewer.afterLines, DiffViewer.beforeLines.
  destruct (computeDiff_sides beforeCode afterCode) as [Hb Ha].
  apply (f_equal length) in Hb, Ha. unfold beforeSide, afterSide in Hb, Ha.
  rewrite length_fmap, length_take in Hb, Ha. unfold MAX_LINES in Hb, Ha.
  rewrite filter_or_length in Hb, Ha by congruence.
  split_and!; [lia | lia | apply length_by_type].
Qed.

Lemma bind_same (lines : list string) :
  seq 0 (length lines) ≫= pushed lines lines
  = imap (λ j l, mkDiffLine unchanged (j + 1) l) lines.
Proof.
  rewrite (bind_run _ (λ j l, mkDiffLine unchanged (j + 1) l) lines 0); [done|].
  intros j l Hl. by apply pushed_unchanged.
Qed.

(** X3: the header reports no addition and no deletion exactly when the
    first 500 lines of the two texts are the same lines; a difference
    beyond line 500 is not reported. *)
Theorem header_no_change_iff (beforeCode afterCode : option string) :
  DiffViewer.additions beforeCode afterCode = 0
  ∧ DiffViewer.deletions beforeCode afterCode = 0
  ↔ take 500 (DiffViewer.beforeLines beforeCode)
    = take 500 (DiffViewer.afterLines afterCode).
Proof.
  unfold DiffViewer.additions, DiffViewer.deletions, DiffViewer.diffLines,
    DiffViewer.beforeLines, DiffViewer.afterLines.
  change 500 with MAX_LINES.
  split.
  - intros [Hadd Hdel].
    destruct (computeDiff_sides beforeCode afterCode) as [<- <-].
    unfold beforeSide, afterSide.
    by rewrite !filter_or_none.
  - intros Hsame. rewrite computeDiff_bind. cbv zeta.
    rewrite Hsame, Nat.max_id, bind_same.
    split; rewrite filter_none; try done;
      apply Forall_forall; by intros d (j & l & -> & _)%elem_of_lookup_imap.
Qed.

Lemma bind_count (P Q : DiffLine → Prop)
    `{!∀ x, Decision (P x)} `{!∀ x, Decision (Q x)}
    (f g : nat → list DiffLine) (n : nat) :
  (∀ i, i < n → length (filter P (f i)) = length (filter Q (g i))) →
  length (filter P (seq 0 n ≫= f)) = length (filter Q (seq 0 n ≫= g)).
Proof.
  induction n as [|n IH]; intros Hfg; [done|].
  rewrite seq_S, Nat.add_0_l, !bind_app, !bind_singleton.
  rewrite !filter_app, !length_app, IH, Hfg by (intros; auto with lia).
  done.
Qed.

Lemma pushed_swap (before after : list string) (i : nat) :
  i < Nat.max (length before) (length after) →
  length (filter (λ d, type d = added) (pushed before after i))
  = length (filter (λ d, type d = removed) (pushed after before i))
  ∧ length (filter (λ d, type d = removed) (pushed before after i))
    = length (filter (λ d, type d = added) (pushed after before i))
  ∧ length (filter (λ d, type d = unchanged) (pushed before after i))
    = length (filter (λ d, type d = unchanged) (pushed after before i)).
Proof.
  intros Hi.
  destruct (pushed_cases before after i Hi)
    as [(a & Hb & Ha & ->)|[(b & Hb & Ha & ->)|
        [(b & Hb & Ha & ->)|(b & a & Hb & Ha & Hne & ->)]]].
  - by rewrite (pushed_removed after before i a).
  - by rewrite (pushed_added after before i b).
  - by rewrite (pushed_unchanged after before i b).
  - by rewrite (pushed_changed after before i a b).
Qed.

(** X4: exchanging the two texts exchanges the additions and the deletions
    of the header and keeps the unchanged count. *)
Theorem header_counts_swap (beforeCode afterCode : option string) :
  DiffViewer.additions beforeCode afterCode
  = DiffViewer.deletions afterCode beforeCode
  ∧ DiffViewer.deletions beforeCode afterCode
    = DiffViewer.additions afterCode beforeCode
  ∧ DiffViewer.unchangedCount beforeCode afterCode
    = DiffViewer.unchangedCount afterCode beforeCode.
Proof.
  unfold DiffViewer.additions, DiffViewer.deletions, DiffViewer.unchangedCount,
    DiffViewer.diffLines.
  rewrite !computeDiff_bind. cbv zeta.
  set (before := take MAX_LINES (JS.split (JS.or_empty beforeCode))).
  set (after := take MAX_LINES (JS.split (JS.or_empty afterCode))).
  rewrite (Nat.max_comm (length after)).
  split_and!; apply bind_count; intros i Hi;
    by destruct (pushed_swap before after i Hi) as (? & ? & ?).
Qed.

(** ** Pure appends and pure removals of a tail *)

Lemma bind_common_then (before after ext : list string) (t : LineType) :
  (t = added ∧ after = before ++ ext) ∨ (t = removed ∧ before = after ++ ext) →
  let common := if decide (t = added) then before else after in
  seq 0 (Nat.max (length before) (length after)) ≫= pushed before after
  = imap (λ j l, mkDiffLine unchanged (j + 1) l) common
    ++ imap (λ j l, mkDiffLine t (length common + j + 1) l) ext.
Proof.
  intros [[-> ->]|[-> ->]]; simpl.
  - rewrite length_app.
    replace (Nat.max (length before) (length before + length ext))
      with (length before + length ext) by lia.
    rewrite seq_app, Nat.add_0_l, bind_app. f_equal.
    + rewrite (bind_run _ (λ j l, mkDiffLine unchanged (j + 1) l) before 0);
        [done|].
      intros j l Hl. apply pushed_unchanged; [done|].
      by apply lookup_app_l_Some.
    + apply (bind_run _ (λ j l, mkDiffLine added (j + 1) l) ext (length before)).
      intros j l Hl. apply pushed_added.
      * apply lookup_ge_None_2. lia.
      * rewrite lookup_app_r by lia.
        by replace (length before + j - length before) with j by lia.
  - rewrite length_app.
    replace (Nat.max (length after + length ext) (length after))
      with (length after + length ext) by lia.
    rewrite seq_app, Nat.add_0_l, bind_app. f_equal.
    + rewrite (bind_run _ (λ j l, mkDiffLine unchanged (j + 1) l) after 0);
        [done|].
      intros j l Hl. apply pushed_unchanged; [|done].
      by apply lookup_app_l_Some.
    + apply (bind_run _ (λ j l, mkDiffLine removed (j + 1) l) ext (length after)).
      intros j l Hl. apply pushed_removed.
      * rewrite lookup_app_r by lia.
        by replace (length after + j - length after) with j by lia.
      * apply lookup_ge_None_2. lia.
Qed.

(** X5: when the first 500 after lines are the first 500 before lines
    followed by further lines, [computeDiff] is one [unchanged] record per
    common line followed by one [added] record per further line; when the
    before lines are the after lines followed by further lines, it is the
    [unchanged] records followed by one [removed] record per further line.
    Positions run on from the common part. *)
Theorem computeDiff_pure_tail (beforeCode afterCode : option string)
    (ext : list string) :
  let before := take MAX_LINES (JS.split (JS.or_empty beforeCode)) in
  let after := take MAX_LINES (JS.split (JS.or_empty afterCode)) in
  (after = before ++ ext →
   computeDiff beforeCode afterCode
   = imap (λ j l, mkDiffLine unchanged (j + 1) l) before
     ++ imap (λ j l, mkDiffLine added (length before + j + 1) l) ext)
  ∧ (before = after ++ ext →
     computeDiff beforeCode afterCode
     = imap (λ j l, mkDiffLine unchanged (j + 1) l) after
       ++ imap (λ j l, mkDiffLine removed (length after + j + 1) l) ext).
Proof.
  intros before after. rewrite computeDiff_bind. cbv zeta.
  fold before after. split; intros H.
  - by apply (bind_common_then before after ext added); left.
  - by apply (bind_common_then before after ext removed); right.
Qed.

Lemma computeDiff_pure_tail_witness :
  computeDiff (Some (JS.join ["a"; "b"])) (Some (JS.join ["a"; "b"; "c"; "d"]))
  = [mkDiffLine unchanged 1 "a"; mkDiffLine unchanged 2 "b";
     mkDiffLine added 3 "c"; mkDiffLine added 4 "d"]
  ∧ computeDiff (Some (JS.join ["a"; "b"; "c"])) (Some (JS.join ["a"; "b"]))
    = [mkDiffLine unchanged 1 "a"; mkDiffLine unchanged 2 "b";
       mkDiffLine removed 3 "c"].
Proof.
  split.
  - apply (proj1 (computeDiff_pure_tail
                    (Some (JS.join ["a"; "b"]))
                    (Some (JS.join ["a"; "b"; "c"; "d"])) ["c"; "d"])).
    reflexivity.
  - apply (proj2 (computeDiff_pure_tail
                    (Some (JS.join ["a"; "b"; "c"]))
                    (Some (JS.join ["a"; "b"])) ["c"])).
    reflexivity.
Defined.

(** ** The banner and the panel height *)

(** X6: the truncation banner is absent exactly when the records cover both
    texts whole, that is, when no line of either text was dropped. *)
Theorem banner_iff_lines_dropped (beforeCode afterCode : option string) :
  DiffViewer.truncated beforeCode afterCode = false
  ↔ beforeSide (DiffViewer.diffLines beforeCode afterCode)
    = DiffViewer.beforeLines beforeCode
    ∧ afterSide (DiffViewer.diffLines beforeCode afterCode)
      = DiffViewer.afterLines afterCode.
Proof.
  unfold DiffViewer.truncated, DiffViewer.diffLines,
    DiffViewer.beforeLines, DiffViewer.afterLines.
  destruct (computeDiff_sides beforeCode afterCode) as [-> ->].
  unfold MAX_LINES.
  set (bl := JS.split (JS.or_empty beforeCode)).
  set (al := JS.split (JS.or_empty afterCode)).
  rewrite orb_false_iff, !Nat.ltb_ge. split.
  - intros [Hb Ha]. by rewrite !take_ge.
  - intros [Hb Ha]. apply (f_equal length) in Hb, Ha.
    rewrite length_take in Hb, Ha. lia.
Qed.

(** X7: the panel height is 24 pixels per line of the longer text, capped at
    720 pixels; the cap of 500 lines of the current component never shows
    in it, so it is the height the earlier component computes, and it lies
    between 24 and 720. *)
Theorem panelHeight_bounds (beforeCode afterCode : option string) :
  DiffViewer.panelHeight beforeCode afterCode
  = Nat.min (24 * Nat.max (length (DiffViewer.beforeLines beforeCode))
                          (length (DiffViewer.afterLines afterCode))) 720
  ∧ DiffViewer.panelHeight beforeCode afterCode
    = Legacy.panelHeight beforeCode afterCode
  ∧ 24 ≤ DiffViewer.panelHeight beforeCode afterCode ≤ 720.
Proof.
  unfold DiffViewer.panelHeight, DiffViewer.maxLines, DiffViewer.lineHeight,
    Legacy.panelHeight, Legacy.maxLines, Legacy.lineHeight,
    DiffViewer.beforeLines, DiffViewer.afterLines,
    Legacy.beforeLines, Legacy.afterLines.
  pose proof (split_length_pos (JS.or_empty beforeCode)).
  pose proof (split_length_pos (JS.or_empty afterCode)).
  lia.
Qed.

(** ** The split view of the two components *)





(** ** Annotations under the rows *)

Lemma filter_fmap {A B : Type} (f : A → B) (P : B → Prop)
    `{!∀ x, Decision (P x)} (l : list A) :
  filter P (f <$> l) = f <$> filter (λ x, P (f x)) l.
Proof.
  induction l as [|x l IH]; [done|].
  rewrite fmap_cons, !filter_cons.
  destruct (decide (P (f x))); by rewrite IH.
Qed.

Lemma filter_imap_index {A B : Type} (P : B → Prop) `{!∀ x, Decision (P x)}
    (l : list A) :
  ∀ (g : nat → A → B) (i : nat) (x : A),
    l !! i = Some x →
    (∀ j y, l !! j = Some y → P (g j y) ↔ j = i) →
    filter P (imap g l) = [g i x].
Proof.
  induction l as [|y l IH]; intros g i x Hx Hiff; [done|].
  rewrite imap_cons, filter_cons.
  destruct i as [|i]; simpl in Hx.
  - injection Hx as ->.
    destruct (decide (P (g 0 x))) as [_|Hn];
      [|destruct Hn; by apply (Hiff 0 x)].
    f_equal. apply filter_none, Forall_forall.
    intros r (j & z & -> & Hz)%elem_of_lookup_imap HP.
    by apply (Hiff (S j) z) in HP.
  - destruct (decide (P (g 0 y))) as [HP|_];
      [by apply (Hiff 0 y) in HP|].
    apply (IH (g ∘ S) i x Hx).
    intros j z Hz. simpl. rewrite (Hiff (S j) z Hz). lia.
Qed.

(** X9: an annotation found at the position of a changed line is attached
    twice in the unified view, to the [removed] record and to the [added]
    record of that position, and once in the split view, to the after row
    of that number. *)
Theorem annotation_on_changed_line (beforeCode afterCode : option string)
    (annotations : list Annotation.t) (a : Annotation.t)
    (i : nat) (b c : string) :
  take MAX_LINES (JS.split (JS.or_empty beforeCode)) !! i = Some b →
  take MAX_LINES (JS.split (JS.or_empty afterCode)) !! i = Some c →
  b ≠ c →
  DiffViewer.getAnnotationForLine annotations (i + 1) = Some a →
  filter (λ row, row.2 = Some a)
    (DiffViewer.unifiedRows beforeCode afterCode annotations)
  = [(mkDiffLine removed (i + 1) b, Some a); (mkDiffLine added (i + 1) c, Some a)]
  ∧ filter (λ row, row.2 = Some a)
      (DiffViewer.splitAfterAnnotations afterCode annotations)
    = [(i + 1, c, Some a)].
Proof.
  intros Hb Hc Hne Hget.
  pose proof Hget as [_ Hline]%getAnnotationForLine_Some.
  assert (∀ n, DiffViewer.getAnnotationForLine annotations n = Some a ↔ n = i + 1)
    as Hiff.
  { intros n. split; [|by intros ->].
    intros [_ Hn]%getAnnotationForLine_Some. lia. }
  split.
  - unfold DiffViewer.unifiedRows, DiffViewer.diffLines.
    rewrite filter_fmap. simpl.
    rewrite (list_filter_iff _ (λ d, lineNumber d = i + 1)) by (intros; apply Hiff).
    rewrite computeDiff_bind. cbv zeta. rewrite bind_at_position.
    apply lookup_lt_Some in Hb as Hlt.
    rewrite decide_True by lia.
    replace (i + 1 - 1) with i by lia.
    rewrite (pushed_changed _ _ i b c) by done.
    simpl. by rewrite Hget.
  - unfold DiffViewer.splitAfterAnnotations, DiffViewer.afterLines.
    change 500 with MAX_LINES.
    rewrite (filter_imap_index _ _ _ i c Hc); [by rewrite Hget|].
    intros j y _. simpl. rewrite Hiff. lia.
Qed.

Lemma annotation_on_changed_line_witness :
  let annotations := [Annotation.mk 2 "renamed" warning] in
  let beforeCode := Some (JS.join ["a"; "b"; "c"]) in
  let afterCode := Some (JS.join ["a"; "x"; "c"]) in
  filter (λ row, row.2 = Some (Annotation.mk 2 "renamed" warning))
    (DiffViewer.unifiedRows beforeCode afterCode annotations)
  = [(mkDiffLine removed 2 "b", Some (Annotation.mk 2 "renamed" warning));
     (mkDiffLine added 2 "x", Some (Annotation.mk 2 "renamed" warning))]
  ∧ filter (λ row, row.2 = Some (Annotation.mk 2 "renamed" warning))
      (DiffViewer.splitAfterAnnotations afterCode annotations)
    = [(2, "x", Some (Annotation.mk 2 "renamed" warning))].
Proof.
  apply (annotation_on_changed_line
           (Some (JS.join ["a"; "b"; "c"])) (Some (JS.join ["a"; "x"; "c"]))
           [Annotation.mk 2 "renamed" warning]
           (Annotation.mk 2 "renamed" warning) 1 "b" "x");
    [reflexivity | reflexivity | discriminate | reflexivity].
Defined.

(** X10: every row of the after column of the split view has a record of
    the unified view with the same number and the same text, [added] or
    [unchanged], and both carry the same annotation lookup: an annotation
    shown in the split view is shown in the unified view at the same line. *)
Theorem split_annotation_in_unified (beforeCode afterCode : option string)
    (annotations : list Annotation.t)
    (n : nat) (line : string) (ann : option Annotation.t) :
  (n, line, ann) ∈ DiffViewer.splitAfterAnnotations afterCode annotations →
  ∃ d, (d, ann) ∈ DiffViewer.unifiedRows beforeCode afterCode annotations
       ∧ lineNumber d = n ∧ content d = line
       ∧ (type d = added ∨ type d = unchanged).
Proof.
  unfold DiffViewer.splitAfterAnnotations, DiffViewer.afterLines,
    DiffViewer.unifiedRows, DiffViewer.diffLines.
  change 500 with MAX_LINES.
  intros (i & l & [= -> -> ->] & Hl)%elem_of_lookup_imap.
  destruct (computeDiff_numbered beforeCode afterCode) as [_ Hnum].
  assert ((i + 1, l) ∈ afterSideNumbered (computeDiff beforeCode afterCode))
    as Hin.
  { rewrite Hnum. apply elem_of_lookup_imap. eauto. }
  unfold afterSideNumbered in Hin.
  apply list_elem_of_fmap in Hin as (d & [= Hn Hc] & Hd).
  apply list_elem_of_filter in Hd as [Ht Hd].
  exists d. split_and!; [|done..].
  apply list_elem_of_fmap. exists d. split; [|done].
  by rewrite <- Hn.
Qed.

Lemma split_annotation_in_unified_witness :
  ∃ d, (d, Some (Annotation.mk 2 "renamed" warning))
       ∈ DiffViewer.unifiedRows (Some (JS.join ["a"; "b"])) (Some (JS.join ["a"; "x"; "c"]))
           [Annotation.mk 2 "renamed" warning]
       ∧ lineNumber d = 2 ∧ content d = "x"
       ∧ (type d = added ∨ type d = unchanged).
Proof.
  apply (split_annotation_in_unified
           (Some (JS.join ["a"; "b"])) (Some (JS.join ["a"; "x"; "c"]))
           [Annotation.mk 2 "renamed" warning] 2 "x"
           (Some (Annotation.mk 2 "renamed" warning))).
  vm_compute. apply list_elem_of_further, list_elem_of_here.
Defined.

(** ** One record, one line of text *)

Lemma split_no_line_feed (s : string) :
  Forall (λ l, hasLineFeed l = false) (JS.split s).
Proof.
  induction s as [|c s IH]; simpl; [by repeat constructor|].
  case_decide as Hc.
  - by constructor.
  - destruct (JS.split s) as [|l ls]; simpl.
    + repeat constructor. simpl. by rewrite bool_decide_eq_false_2.
    + inversion IH as [|? ? Hl Hls]; subst. constructor; [|done].
      simpl. by rewrite bool_decide_eq_false_2.
Qed.

(** X11: no record of [computeDiff] has a line feed in its content. *)
Theorem computeDiff_content_single_line (beforeCode afterCode : option string) :
  Forall (λ d, hasLineFeed (content d) = false) (computeDiff beforeCode afterCode).
Proof.
  apply Forall_forall. intros d Hd.
  destruct (computeDiff_sides beforeCode afterCode) as [Hbs Has].
  assert (content d ∈ JS.split (JS.or_empty beforeCode)
          ∨ content d ∈ JS.split (JS.or_empty afterCode)) as [Hin|Hin].
  { destruct (decide (type d = added)) as [Ht|Ht].
    - right. eapply (subseteq_take MAX_LINES). rewrite <- Has.
      unfold afterSide. apply list_elem_of_fmap. exists d. split; [done|].
      apply list_elem_of_filter. auto.
    - left. eapply (subseteq_take MAX_LINES). rewrite <- Hbs.
      unfold beforeSide. apply list_elem_of_fmap. exists d. split; [done|].
      apply list_elem_of_filter. split; [|done].
      destruct (type d) eqn:Hd'; auto; congruence. }
  - pose proof (split_no_line_feed (JS.or_empty beforeCode)) as Hall.
    rewrite Forall_forall in Hall. auto.
  - pose proof (split_no_line_feed (JS.or_empty afterCode)) as Hall.
    rewrite Forall_forall in Hall. auto.
Qed.

(** ** The loop of the earlier component, run by run *)

Lemma while_mono {St : Type} (cond : St → bool) (body : St → St) (fuel : nat) :
  ∀ (fuel' : nat) (st r : St),
    JS.while cond body fuel st = Some r → fuel ≤ fuel' →
    JS.while cond body fuel' st = Some r.
Proof.
  induction fuel as [|fuel IH]; intros fuel' st r Hrun Hle; [done|].
  destruct fuel' as [|fuel']; [lia|]. simpl in *.
  destruct (cond st); [|done]. apply IH; [done|lia].
Qed.

Lemma while_never {St : Type} (cond : St → bool) (body : St → St)
    (n : nat) (st : St) :
  (∀ fuel, JS.while cond body (n + fuel) st = None) →
  ∀ fuel, JS.while cond body fuel st = None.
Proof.
  intros Hnone fuel.
  destruct (JS.while cond body fuel st) as [r|] eqn:Hrun; [|done].
  apply (while_mono _ _ _ (n + fuel)) in Hrun; [|lia].
  by rewrite Hnone in Hrun.
Qed.

Lemma imap_cons_shift (t : LineType) (k : nat) (x : string) (rest : list string) :
  imap (λ j l, mkDiffLine t (k + j + 1) l) (x :: rest)
  = mkDiffLine t (k + 1) x :: imap (λ j l, mkDiffLine t (S k + j + 1) l) rest.
Proof.
  rewrite imap_cons, Nat.add_0_r. f_equal.
  apply imap_ext. intros j l _. simpl. f_equal. lia.
Qed.

Section LegacyLoop.
Variables beforeLines afterLines : list string.

Local Abbreviation run := (JS.while (Legacy.cond beforeLines afterLines)
                             (Legacy.body beforeLines afterLines)).

Lemma legacy_cond_true (bi ai : nat) (dl : list DiffLine) :
  bi < length beforeLines ∨ ai < length afterLines →
  Legacy.cond beforeLines afterLines (Legacy.mkLoopState bi ai dl) = true.
Proof.
  intros H. unfold Legacy.cond. simpl.
  apply orb_true_iff. rewrite !Nat.ltb_lt. done.
Qed.

Lemma legacy_exit (fuel bi ai : nat) (dl : list DiffLine) :
  length beforeLines ≤ bi → length afterLines ≤ ai →
  run (S fuel) (Legacy.mkLoopState bi ai dl) = Some (Legacy.mkLoopState bi ai dl).
Proof.
  intros Hb Ha. simpl. unfold Legacy.cond at 1. simpl.
  destruct (Nat.ltb_spec bi (length beforeLines)); [lia|].
  destruct (Nat.ltb_spec ai (length afterLines)); [lia|]. done.
Qed.

Lemma legacy_body_unchanged (bi ai : nat) (dl : list DiffLine) (l : string) :
  beforeLines !! bi = Some l → afterLines !! ai = Some l →
  Legacy.body beforeLines afterLines (Legacy.mkLoopState bi ai dl)
  = Legacy.mkLoopState (S bi) (S ai) (dl ++ [mkDiffLine unchanged (ai + 1) l]).
Proof.
  intros Hb Ha. unfold Legacy.body. simpl. rewrite Hb, Ha.
  rewrite decide_True by done. by rewrite or_empty_Some.
Qed.

Lemma legacy_body_removed (bi ai : nat) (dl : list DiffLine) (b : string) :
  beforeLines !! bi = Some b → b ∉ afterLines →
  Legacy.body beforeLines afterLines (Legacy.mkLoopState bi ai dl)
  = Legacy.mkLoopState (S bi) ai (dl ++ [mkDiffLine removed (bi + 1) b]).
Proof.
  intros Hb Hnot. unfold Legacy.body. simpl. rewrite Hb.
  rewrite decide_False.
  - simpl. by rewrite (bool_decide_eq_false_2 (b ∈ afterLines)).
  - intros Heq. apply Hnot. symmetry in Heq.
    by apply list_elem_of_lookup_2 in Heq.
Qed.

Lemma legacy_body_added (bi ai : nat) (dl : list DiffLine) (a : string) :
  length beforeLines ≤ bi → afterLines !! ai = Some a →
  Legacy.body beforeLines afterLines (Legacy.mkLoopState bi ai dl)
  = Legacy.mkLoopState bi (S ai) (dl ++ [mkDiffLine added (ai + 1) a]).
Proof.
  intros Hb Ha. unfold Legacy.body. simpl.
  rewrite (lookup_ge_None_2 beforeLines bi), Ha by done.
  rewrite decide_False by done. simpl.
  by rewrite or_empty_Some.
Qed.

(** A run of equal lines on both sides. *)
Lemma legacy_run_unchanged (rest : list string) :
  ∀ (bi ai : nat) (dl : list DiffLine) (fuel : nat),
    (∀ j l, rest !! j = Some l →
       beforeLines !! (bi + j) = Some l ∧ afterLines !! (ai + j) = Some l) →
    run (length rest + fuel) (Legacy.mkLoopState bi ai dl)
    = run fuel
        (Legacy.mkLoopState (bi + length rest) (ai + length rest)
           (dl ++ imap (λ j l, mkDiffLine unchanged (ai + j + 1) l) rest)).
Proof.
  induction rest as [|x rest IH]; intros bi ai dl fuel Hrest.
  - simpl. by rewrite !Nat.add_0_r, app_nil_r.
  - destruct (Hrest 0 x eq_refl) as [Hb Ha]. rewrite Nat.add_0_r in Hb, Ha.
    rewrite (imap_cons_shift unchanged ai).
    simpl length. simpl JS.while.
    rewrite legacy_cond_true by (apply lookup_lt_Some in Hb; lia).
    rewrite (legacy_body_unchanged bi ai dl x) by done.
    rewrite IH.
    + rewrite <- app_assoc. simpl. do 2 f_equal; lia.
    + intros j l Hl. destruct (Hrest (S j) l Hl) as [Hb' Ha'].
      by replace (S bi + j) with (bi + S j) by lia;
         replace (S ai + j) with (ai + S j) by lia.
Qed.

(** A run of before lines that occur nowhere in the after text. *)
Lemma legacy_run_removed (rest : list string) :
  ∀ (bi ai : nat) (dl : list DiffLine) (fuel : nat),
    (∀ j l, rest !! j = Some l →
       beforeLines !! (bi + j) = Some l ∧ l ∉ afterLines) →
    run (length rest + fuel) (Legacy.mkLoopState bi ai dl)
    = run fuel
        (Legacy.mkLoopState (bi + length rest) ai
           (dl ++ imap (λ j l, mkDiffLine removed (bi + j + 1) l) rest)).
Proof.
  induction rest as [|x rest IH]; intros bi ai dl fuel Hrest.
  - simpl. by rewrite !Nat.add_0_r, app_nil_r.
  - destruct (Hrest 0 x eq_refl) as [Hb Hnot]. rewrite Nat.add_0_r in Hb.
    rewrite (imap_cons_shift removed bi).
    simpl length. simpl JS.while.
    rewrite legacy_cond_true by (apply lookup_lt_Some in Hb; lia).
    rewrite (legacy_body_removed bi ai dl x) by done.
    rewrite IH.
    + rewrite <- app_assoc. simpl. do 2 f_equal; lia.
    + intros j l Hl. destruct (Hrest (S j) l Hl) as [Hb' Hnot'].
      by replace (S bi + j) with (bi + S j) by lia.
Qed.

(** A run of after lines once the before text is exhausted. *)
Lemma legacy_run_added (rest : list string) :
  ∀ (bi ai : nat) (dl : list DiffLine) (fuel : nat),
    length beforeLines ≤ bi →
    (∀ j l, rest !! j = Some l → afterLines !! (ai + j) = Some l) →
    run (length rest + fuel) (Legacy.mkLoopState bi ai dl)
    = run fuel
        (Legacy.mkLoopState bi (ai + length rest)
           (dl ++ imap (λ j l, mkDiffLine added (ai + j + 1) l) rest)).
Proof.
  induction rest as [|x rest IH]; intros bi ai dl fuel Hbi Hrest.
  - simpl. by rewrite !Nat.add_0_r, app_nil_r.
  - pose proof (Hrest 0 x eq_refl) as Ha. rewrite Nat.add_0_r in Ha.
    rewrite (imap_cons_shift added ai).
    simpl length. simpl JS.while.
    rewrite legacy_cond_true by (apply lookup_lt_Some in Ha; lia).
    rewrite (legacy_body_added bi ai dl x) by done.
    rewrite IH; [|done|].
    + rewrite <- app_assoc. simpl. do 2 f_equal; lia.
    + intros j l Hl. specialize (Hrest (S j) l Hl).
      by replace (S ai + j) with (ai + S j) by lia.
Qed.

End LegacyLoop.

(** ** What the earlier loop has built when it exits *)

Lemma afterSide_numbered (result : list DiffLine) :
  afterSide result = snd <$> afterSideNumbered result.
Proof.
  unfold afterSide, afterSideNumbered. rewrite <- list_fmap_compose.
  by apply list_fmap_ext.
Qed.

Lemma fmap_snd_imap_numbered (lines : list string) :
  snd <$> imap (λ i l, (i + 1, l)) lines = lines.
Proof.
  apply list_eq. intros i.
  rewrite list_lookup_fmap, list_lookup_imap.
  by destruct (lines !! i).
Qed.

Section LegacyInvariant.
Variables beforeLines afterLines : list string.

Local Abbreviation run := (JS.while (Legacy.cond beforeLines afterLines)
                             (Legacy.body beforeLines afterLines)).

(** The records so far are the lines passed on each side, those of the after
    side numbered as in the after text. *)
Local Abbreviation covered st :=
  (Legacy.beforeIdx st ≤ length beforeLines
   ∧ Legacy.afterIdx st ≤ length afterLines
   ∧ beforeSide (Legacy.diffLines st) = take (Legacy.beforeIdx st) beforeLines
   ∧ afterSideNumbered (Legacy.diffLines st)
     = imap (λ i l, (i + 1, l)) (take (Legacy.afterIdx st) afterLines)).

(** One pass keeps the invariant and moves forward, or leads to a state from
    which the loop never exits. *)
Lemma legacy_covered_step (st : Legacy.LoopState) :
  covered st →
  Legacy.cond beforeLines afterLines st = true →
  (covered (Legacy.body beforeLines afterLines st)
   ∧ Legacy.beforeIdx st + Legacy.afterIdx st
     < Legacy.beforeIdx (Legacy.body beforeLines afterLines st)
       + Legacy.afterIdx (Legacy.body beforeLines afterLines st))
  ∨ (∀ fuel, run fuel (Legacy.body beforeLines afterLines st) = None).
Proof.
  destruct st as [bi ai dl]. simpl. intros (Hbi & Hai & Hbs & Has) Hcond.
  unfold Legacy.body. simpl.
  destruct (beforeLines !! bi) as [b|] eqn:Hb,
           (afterLines !! ai) as [a|] eqn:Ha.
  - pose proof (lookup_lt_Some _ _ _ Hb). pose proof (lookup_lt_Some _ _ _ Ha).
    case_decide as Heq.
    + injection Heq as ->. left. simpl.
      rewrite beforeSide_app, afterSideNumbered_app, Hbs, Has, or_empty_Some.
      rewrite (take_S_r _ _ _ Hb), imap_take_S, Ha.
      split_and!; [lia | lia | done | done | lia].
    + simpl. destruct (decide (b ∈ afterLines)) as [Hin|Hin].
      * rewrite (bool_decide_eq_true_2 _ Hin). left. simpl.
        rewrite beforeSide_app, afterSideNumbered_app, Hbs, Has, or_empty_Some.
        rewrite imap_take_S, Ha.
        split_and!; [lia | lia | by rewrite app_nil_r | done | lia].
      * rewrite (bool_decide_eq_false_2 _ Hin). left. simpl.
        rewrite beforeSide_app, afterSideNumbered_app, Hbs, Has.
        rewrite (take_S_r _ _ _ Hb).
        split_and!; [lia | lia | done | by rewrite app_nil_r | lia].
  - pose proof (lookup_lt_Some _ _ _ Hb). apply lookup_ge_None in Ha.
    rewrite decide_False by done. simpl.
    destruct (decide (b ∈ afterLines)) as [Hin|Hin].
    + rewrite (bool_decide_eq_true_2 _ Hin). right. simpl. intros fuel.
      apply (legacy_stuck beforeLines afterLines bi b Hb Hin). lia.
    + rewrite (bool_decide_eq_false_2 _ Hin). left. simpl.
      rewrite beforeSide_app, afterSideNumbered_app, Hbs, Has.
      rewrite (take_S_r _ _ _ Hb).
      split_and!; [lia | lia | done | by rewrite app_nil_r | lia].
  - pose proof (lookup_lt_Some _ _ _ Ha).
    rewrite decide_False by done. left. simpl.
    rewrite beforeSide_app, afterSideNumbered_app, Hbs, Has, or_empty_Some.
    rewrite imap_take_S, Ha.
    split_and!; [lia | lia | by rewrite app_nil_r | done | lia].
  - apply lookup_ge_None in Hb, Ha.
    unfold Legacy.cond in Hcond. simpl in Hcond.
    apply orb_true_iff in Hcond. rewrite !Nat.ltb_lt in Hcond. lia.
Qed.

Lemma legacy_covered_exit (fuel : nat) :
  ∀ st st' : Legacy.LoopState,
    covered st → run fuel st = Some st' →
    covered st' ∧ Legacy.cond beforeLines afterLines st' = false.
Proof.
  induction fuel as [|fuel IH]; intros st st' Hcov Hrun; [done|].
  simpl in Hrun.
  destruct (Legacy.cond beforeLines afterLines st) eqn:Hcond.
  - destruct (legacy_covered_step st Hcov Hcond) as [[Hcov' _]|Hnever].
    + by apply (IH _ _ Hcov').
    + by rewrite Hnever in Hrun.
  - by injection Hrun as <-.
Qed.

Lemma legacy_exit_sides (fuel : nat) (st' : Legacy.LoopState) :
  run fuel (Legacy.mkLoopState 0 0 []) = Some st' →
  beforeSide (Legacy.diffLines st') = beforeLines
  ∧ afterSideNumbered (Legacy.diffLines st')
    = imap (λ i l, (i + 1, l)) afterLines.
Proof.
  intros Hrun.
  apply legacy_covered_exit in Hrun as [(Hbi & Hai & -> & ->) Hcond].
  - unfold Legacy.cond in Hcond.
    apply orb_false_iff in Hcond. rewrite !Nat.ltb_ge in Hcond.
    by rewrite !take_ge by lia.
  - simpl. split_and!; [lia | lia | done | done].
Qed.

(** If the loop exits at all, it has exited once every line of both texts
    is passed: one iteration per line, and one more to leave. *)
Lemma legacy_exit_within (fuel : nat) :
  ∀ st st' : Legacy.LoopState,
    covered st → run fuel st = Some st' →
    run (length beforeLines - Legacy.beforeIdx st
         + (length afterLines - Legacy.afterIdx st) + 1) st
    = Some st'.
Proof.
  induction fuel as [|fuel IH]; intros st st' Hcov Hrun; [done|].
  rewrite Nat.add_1_r. simpl in *.
  destruct (Legacy.cond beforeLines afterLines st) eqn:Hcond; [|done].
  destruct (legacy_covered_step st Hcov Hcond) as [[Hcov' Hlt]|Hnever].
  - apply (IH _ _ Hcov') in Hrun.
    eapply while_mono; [exact Hrun|].
    destruct Hcov as (? & ? & _), Hcov' as (? & ? & _). lia.
  - by rewrite Hnever in Hrun.
Qed.

End LegacyInvariant.

(** X12: whenever the loop of the earlier component exits, its [removed] and
    [unchanged] records are the lines of the whole before text in order, and
    its [added] and [unchanged] records are the lines of the whole after
    text in order, each numbered by its line in the after text: nothing is
    dropped or invented, and no text is cut at 500 lines. *)
Theorem legacy_exit_covers_texts (fuel : nat) (beforeCode afterCode : option string)
    (result : list DiffLine) :
  Legacy.diffLinesFuel fuel beforeCode afterCode = Some result →
  beforeSide result = Legacy.beforeLines beforeCode
  ∧ afterSide result = Legacy.afterLines afterCode
  ∧ afterSideNumbered result
    = imap (λ i l, (i + 1, l)) (Legacy.afterLines afterCode).
Proof.
  unfold Legacy.diffLinesFuel, Legacy.beforeLines, Legacy.afterLines. cbv zeta.
  intros Hrun. apply fmap_Some in Hrun as (st' & Hrun & ->).
  apply legacy_exit_sides in Hrun as [Hb Ha].
  split_and!; [done| |done].
  by rewrite afterSide_numbered, Ha, fmap_snd_imap_numbered.
Qed.

Lemma legacy_exit_covers_texts_witness :
  beforeSide [mkDiffLine added 1 "b"; mkDiffLine unchanged 2 "a"]
  = Legacy.beforeLines (Some "a")
  ∧ afterSide [mkDiffLine added 1 "b"; mkDiffLine unchanged 2 "a"]
    = Legacy.afterLines (Some (JS.join ["b"; "a"]))
  ∧ afterSideNumbered [mkDiffLine added 1 "b"; mkDiffLine unchanged 2 "a"]
    = imap (λ i l, (i + 1, l)) (Legacy.afterLines (Some (JS.join ["b"; "a"]))).
Proof.
  apply (legacy_exit_covers_texts 10 (Some "a") (Some (JS.join ["b"; "a"]))).
  reflexivity.
Defined.

(** X13: if the loop of the earlier component exits at all, it exits within
    one iteration per line of the two texts plus one, with the same result;
    so running out of that many iterations means that it never exits. *)
Theorem legacy_exit_bound (fuel : nat) (beforeCode afterCode : option string)
    (result : list DiffLine) :
  Legacy.diffLinesFuel fuel beforeCode afterCode = Some result →
  Legacy.diffLinesFuel
    (length (Legacy.beforeLines beforeCode)
     + length (Legacy.afterLines afterCode) + 1) beforeCode afterCode
  = Some result.
Proof.
  unfold Legacy.diffLinesFuel, Legacy.beforeLines, Legacy.afterLines. cbv zeta.
  intros Hrun. apply fmap_Some in Hrun as (st' & Hrun & ->).
  apply legacy_exit_within in Hrun.
  - simpl in Hrun. rewrite !Nat.sub_0_r in Hrun. by rewrite Hrun.
  - simpl. split_and!; [lia | lia | done | done].
Qed.

Lemma legacy_exit_bound_witness :
  Legacy.diffLinesFuel
    (length (Legacy.beforeLines (Some "a"))
     + length (Legacy.afterLines (Some (JS.join ["b"; "a"]))) + 1)
    (Some "a") (Some (JS.join ["b"; "a"]))
  = Some [mkDiffLine added 1 "b"; mkDiffLine unchanged 2 "a"].
Proof.
  apply (legacy_exit_bound 10 (Some "a") (Some (JS.join ["b"; "a"]))).
  reflexivity.
Defined.

(** ** Inputs on which the earlier loop exits, and inputs on which it hangs *)

(** X14: on two texts with no line in common the loop of the earlier
    component exits, within one iteration per line plus one, and gives
    every before line as a [removed] record followed by every after line as
    an [added] record, each numbered within its own text. *)
Theorem legacy_disjoint_texts (fuel : nat) (beforeCode afterCode : option string) :
  (∀ l, l ∈ Legacy.beforeLines beforeCode → l ∉ Legacy.afterLines afterCode) →
  length (Legacy.beforeLines beforeCode) + length (Legacy.afterLines afterCode)
  < fuel →
  Legacy.diffLinesFuel fuel beforeCode afterCode
  = Some (imap (λ j l, mkDiffLine removed (j + 1) l) (Legacy.beforeLines beforeCode)
          ++ imap (λ j l, mkDiffLine added (j + 1) l) (Legacy.afterLines afterCode)).
Proof.
  unfold Legacy.diffLinesFuel, Legacy.beforeLines, Legacy.afterLines. cbv zeta.
  set (bl := JS.split (JS.or_empty beforeCode)).
  set (al := JS.split (JS.or_empty afterCode)).
  intros Hdisj Hfuel.
  rewrite (while_mono _ _ (length bl + (length al + 1)) fuel
             (Legacy.mkLoopState 0 0 [])
             (Legacy.mkLoopState (length bl) (length al)
                (imap (λ j l, mkDiffLine removed (j + 1) l) bl
                 ++ imap (λ j l, mkDiffLine added (j + 1) l) al)));
    [done| |lia].
  rewrite (legacy_run_removed bl al bl 0 0 []).
  - rewrite (legacy_run_added bl al al); [|simpl; lia|done].
    by rewrite legacy_exit by (simpl; lia).
  - intros j l Hl. split; [done|].
    apply Hdisj. by eapply list_elem_of_lookup_2.
Qed.

Lemma legacy_disjoint_texts_witness :
  Legacy.diffLinesFuel 5 (Some (JS.join ["a"; "b"])) (Some (JS.join ["c"; "d"]))
  = Some (imap (λ j l, mkDiffLine removed (j + 1) l)
            (Legacy.beforeLines (Some (JS.join ["a"; "b"])))
          ++ imap (λ j l, mkDiffLine added (j + 1) l)
               (Legacy.afterLines (Some (JS.join ["c"; "d"])))).
Proof.
  apply (legacy_disjoint_texts 5 (Some (JS.join ["a"; "b"])) (Some (JS.join ["c"; "d"]))).
  - intros l Hl Hl'. vm_compute in Hl, Hl'.
    apply elem_of_cons in Hl as [->|Hl];
      [|apply elem_of_cons in Hl as [->|Hl]; [|by apply not_elem_of_nil in Hl]];
      repeat (apply elem_of_cons in Hl' as [Hl'|Hl']; [discriminate Hl'|]);
      by apply not_elem_of_nil in Hl'.
  - vm_compute. lia.
Defined.

(** X15: when the after text is the before text followed by further lines
    (among them: the two texts are the same), the loop of the earlier
    component exits with one [unchanged] record per common line followed by
    one [added] record per further line; for an after text of at most 500
    lines this is the result of [computeDiff]. *)
Theorem legacy_pure_append (fuel : nat) (beforeCode afterCode : option string)
    (ext : list string) :
  Legacy.afterLines afterCode = Legacy.beforeLines beforeCode ++ ext →
  length (Legacy.afterLines afterCode) < fuel →
  Legacy.diffLinesFuel fuel beforeCode afterCode
  = Some (imap (λ j l, mkDiffLine unchanged (j + 1) l)
            (Legacy.beforeLines beforeCode)
          ++ imap (λ j l, mkDiffLine added
                            (length (Legacy.beforeLines beforeCode) + j + 1) l)
               ext)
  ∧ (length (Legacy.afterLines afterCode) ≤ 500 →
     Legacy.diffLinesFuel fuel beforeCode afterCode
     = Some (computeDiff beforeCode afterCode)).
Proof.
  unfold Legacy.beforeLines, Legacy.afterLines.
  intros Happ Hfuel.
  assert (Legacy.diffLinesFuel fuel beforeCode afterCode
          = Some (imap (λ j l, mkDiffLine unchanged (j + 1) l)
                    (JS.split (JS.or_empty beforeCode))
                  ++ imap (λ j l, mkDiffLine added
                             (length (JS.split (JS.or_empty beforeCode)) + j + 1) l)
                       ext)) as Hrun.
  { unfold Legacy.diffLinesFuel. cbv zeta.
    set (bl := JS.split (JS.or_empty beforeCode)) in *.
    set (al := JS.split (JS.or_empty afterCode)) in *.
    rewrite Happ, length_app in Hfuel.
    rewrite (while_mono _ _ (length bl + (length ext + 1)) fuel
               (Legacy.mkLoopState 0 0 [])
               (Legacy.mkLoopState (length bl) (length bl + length ext)
                  (imap (λ j l, mkDiffLine unchanged (j + 1) l) bl
                   ++ imap (λ j l, mkDiffLine added (length bl + j + 1) l) ext)));
      [done| |lia].
    rewrite (legacy_run_unchanged bl al bl 0 0 []).
    - rewrite (legacy_run_added bl al ext); [|simpl; lia|].
      + rewrite legacy_exit; [done|simpl; lia|].
        simpl. rewrite Happ, length_app. lia.
      + intros j l Hl. rewrite Happ, lookup_app_r by (simpl; lia).
        by replace (0 + length bl + j - length bl) with j by lia.
    - intros j l Hl. split; [done|].
      rewrite Happ. by apply lookup_app_l_Some. }
  split; [done|].
  intros Hlen. rewrite Hrun. f_equal.
  rewrite computeDiff_bind. cbv zeta.
  assert (length (JS.split (JS.or_empty beforeCode)) ≤ 500) as Hlen'.
  { rewrite Happ, length_app in Hlen. lia. }
  rewrite !take_ge by done.
  symmetry.
  by apply (bind_common_then _ _ ext added); left.
Qed.

Lemma legacy_pure_append_witness :
  Legacy.diffLinesFuel 4 (Some "a") (Some (JS.join ["a"; "b"; "c"]))
  = Some (imap (λ j l, mkDiffLine unchanged (j + 1) l)
            (Legacy.beforeLines (Some "a"))
          ++ imap (λ j l, mkDiffLine added
                            (length (Legacy.beforeLines (Some "a")) + j + 1) l)
               ["b"; "c"])
  ∧ (length (Legacy.afterLines (Some (JS.join ["a"; "b"; "c"]))) ≤ 500 →
     Legacy.diffLinesFuel 4 (Some "a") (Some (JS.join ["a"; "b"; "c"]))
     = Some (computeDiff (Some "a") (Some (JS.join ["a"; "b"; "c"])))).
Proof.
  apply (legacy_pure_append 4 (Some "a") (Some (JS.join ["a"; "b"; "c"])) ["b"; "c"]).
  - reflexivity.
  - vm_compute. lia.
Defined.

(** X16: when the before text is the whole after text followed by further
    lines, the first of them a line that occurs in the after text, the loop
    of the earlier component never exits, whatever the number of iterations
    allowed (for instance after the removal of a trailing line that repeats
    an earlier one). *)
Theorem legacy_hangs_on_repeated_line (beforeCode afterCode : option string)
    (l : string) (rest : list string) :
  Legacy.beforeLines beforeCode = Legacy.afterLines afterCode ++ l :: rest →
  l ∈ Legacy.afterLines afterCode →
  ∀ fuel, Legacy.diffLinesFuel fuel beforeCode afterCode = None.
Proof.
  unfold Legacy.diffLinesFuel, Legacy.beforeLines, Legacy.afterLines. cbv zeta.
  set (bl := JS.split (JS.or_empty beforeCode)).
  set (al := JS.split (JS.or_empty afterCode)).
  intros Happ Hin fuel.
  rewrite (while_never _ _ (length al)); [done|].
  intros fuel'.
  rewrite (legacy_run_unchanged bl al al 0 0 []).
  - apply (legacy_stuck bl al _ l); [|done|simpl; lia].
    rewrite Happ. by apply list_lookup_middle.
  - intros j x Hx. split; [|done].
    rewrite Happ. by apply lookup_app_l_Some.
Qed.

Lemma legacy_hangs_on_repeated_line_witness :
  Legacy.diffLinesFuel 1000
    (Some (JS.join ["a"; "b"; "a"])) (Some (JS.join ["a"; "b"]))
  = None.
Proof.
  apply (legacy_hangs_on_repeated_line
           (Some (JS.join ["a"; "b"; "a"])) (Some (JS.join ["a"; "b"])) "a" []).
  - reflexivity.
  - vm_compute. apply list_elem_of_here.
Defined.
